(** * Uzid: sortable identifiers made of a prefix, a timestamp and a random suffix

    A shallow embedding of [src/index.ts] (class [Uzid]) and the properties of
    its radix conversion, identifier construction, verification and batch
    generation.

    Conventions of the embedding.
    - JavaScript strings are [string]s; a character is one code unit, and the
      order on strings is the code unit order ([String.compare]).
    - JavaScript numbers are doubles: a finite number is the rational it
      stands for ([Finite q]), next to [NaN] and the two infinities.  The
      arithmetic of the encoder and the decoder rounds as the program does
      ([Js.round]: to the nearest double, ties to even); it is exact on
      integers up to [2^53], which covers every time value (at most
      [8.64e15] in absolute value).
    - [Date.now()] and [Math.random()] read a [World]; every read advances a
      cursor, so that an operation has no effect exactly when it returns the
      world it was given. *)

From Stdlib Require Import ZArith QArith Qabs Qround Qreduction Qcanon.
From Stdlib Require Import Bool List Ascii String Lia.
From Stdlib Require Import Sorting.Mergesort Sorting.Sorted Sorting.Permutation.
From Stdlib Require Import Orders.
Import ListNotations.

Local Open Scope string_scope.
Local Open Scope Z_scope.

(* ================================================================= *)
(** ** JavaScript values used by the class *)

Module Js.

(** Numbers: finite values are exact rationals. *)
Inductive number : Type :=
| Finite (q : Q)
| NaN
| Infinity (negative : bool).

Definition of_Z (z : Z) : number := Finite (inject_Z z).

(** [Number.isInteger]. *)
Definition isInteger (x : number) : bool :=
  match x with
  | Finite q => Qnum q mod Zpos (Qden q) =? 0
  | _ => false
  end.

(** [isNaN] on a number. *)
Definition isNaN (x : number) : bool :=
  match x with NaN => true | _ => false end.

(** [x < y] on numbers; every comparison with [NaN] is false. *)
Definition ltb (x y : number) : bool :=
  match x, y with
  | NaN, _ | _, NaN => false
  | Finite a, Finite b => negb (Qle_bool b a)
  | Finite _, Infinity neg => negb neg
  | Infinity neg, Finite _ => neg
  | Infinity n1, Infinity n2 => n1 && negb n2
  end.

(** [x === y] on numbers. *)
Definition eqb (x y : number) : bool :=
  match x, y with
  | Finite a, Finite b => Qeq_bool a b
  | Infinity n1, Infinity n2 => Bool.eqb n1 n2
  | _, _ => false
  end.

(** Truthiness of a number: [0] and [NaN] are falsy. *)
Definition truthy (x : number) : bool :=
  match x with
  | Finite q => negb (Qnum q =? 0)
  | NaN => false
  | Infinity _ => true
  end.

(** The exponent of the binade of [a / b], for [a > 0]:
    [2^k <= a / b < 2^(k+1)]. *)
Definition log2_ratio (a : Z) (b : positive) : Z :=
  let d := Z.log2 a - Z.log2 (Zpos b) in
  if (if 0 <=? d then Zpos b * 2 ^ d <=? a else Zpos b <=? a * 2 ^ (- d))
  then d else d - 1.

(** The integer nearest to [n / d], the even one of two that are as near. *)
Definition nearest_even (n d : Z) : Z :=
  let q := n / d in
  let r := n mod d in
  if 2 * r <? d then q
  else if d <? 2 * r then q + 1
  else if Z.even q then q else q + 1.

(** The double nearest to [a / b], for [a > 0]: a significand of 53 bits,
    rounded to nearest, ties to even, at the exponent of the binade (not
    below the exponent of the subnormal numbers). *)
Definition round_pos (a : Z) (b : positive) : Q :=
  let e := Z.max (log2_ratio a b - 52) (-1074) in
  if 0 <=? e
  then inject_Z (nearest_even a (Zpos b * 2 ^ e) * 2 ^ e)
  else Qred (nearest_even (a * 2 ^ (- e)) (Zpos b) # Z.to_pos (2 ^ (- e))).

(** The double nearest to a rational, before overflow. *)
Definition round (x : Q) : Q :=
  match Qnum x with
  | 0 => 0%Q
  | Zpos _ => round_pos (Qnum x) (Qden x)
  | Zneg p => Qopp (round_pos (Zpos p) (Qden x))
  end.

(** The number a real result is rounded to: the nearest double, and an
    infinity when that is [2^1024] or more in absolute value. *)
Definition of_Q (x : Q) : number :=
  let r := round x in
  if Qle_bool (inject_Z (2 ^ 1024)) (Qabs r) then Infinity (Qnum r <? 0)
  else Finite r.

(** [x * y]. *)
Definition mul (x y : number) : number :=
  match x, y with
  | NaN, _ | _, NaN => NaN
  | Finite a, Finite b => of_Q (a * b)
  | Finite a, Infinity n | Infinity n, Finite a =>
      if Qnum a =? 0 then NaN else Infinity (xorb n (Qnum a <? 0))
  | Infinity n1, Infinity n2 => Infinity (xorb n1 n2)
  end.

(** [x + y]. *)
Definition add (x y : number) : number :=
  match x, y with
  | NaN, _ | _, NaN => NaN
  | Finite a, Finite b => of_Q (a + b)
  | Finite _, Infinity n | Infinity n, Finite _ => Infinity n
  | Infinity n1, Infinity n2 => if Bool.eqb n1 n2 then Infinity n1 else NaN
  end.

(** [Math.floor(n / base)] for integers [n] and [base > 0]: the quotient is
    rounded to a double before [Math.floor] (the quotient of two doubles by
    a base of at least 1 does not overflow). *)
Definition Math_floor_div (n base : Z) : Z :=
  Qfloor (round (n # Z.to_pos base)).

(** The largest time value a [Date] holds, in milliseconds. *)
Definition MAX_TIME : Z := 8640000000000000.

(** [new Date(t).getTime()]: the time value clipped by [TimeClip], which is
    [NaN] for a number that is not finite or exceeds [MAX_TIME] in absolute
    value, and the number truncated to an integer otherwise. *)
Definition Date_getTime (t : number) : number :=
  match t with
  | Finite q =>
      if Qle_bool (Qabs q) (inject_Z MAX_TIME)
      then of_Z (Z.quot (Qnum q) (Zpos (Qden q)))
      else NaN
  | _ => NaN
  end.

(** [s[i]] used as a string operand: the one-character string at index [i],
    or the text of [undefined] when [i] is out of range. *)
Definition char_at (s : string) (i : Z) : string :=
  if i <? 0 then "undefined"
  else match String.get (Z.to_nat i) s with
       | Some c => String c ""
       | None => "undefined"
       end.

(** [s.indexOf(c)] for a one-character [c]: the first index, or [-1]. *)
Fixpoint indexOf (s : string) (c : ascii) : Z :=
  match s with
  | EmptyString => -1
  | String d s' =>
      if Ascii.eqb d c then 0
      else let i := indexOf s' c in if i =? -1 then -1 else i + 1
  end.

(** [s.includes(c)] for a one-character [c]. *)
Fixpoint includes (s : string) (c : ascii) : bool :=
  match s with
  | EmptyString => false
  | String d s' => Ascii.eqb d c || includes s' c
  end.

(** [s.startsWith(p)]. *)
Definition startsWith (s p : string) : bool := String.prefix p s.

(** [s.slice(start, end)]; a negative index counts from the end, and both are
    clamped to the string. *)
Definition slice (s : string) (start : Z) (end_ : option Z) : string :=
  let len := Z.of_nat (String.length s) in
  let clamp i := if i <? 0 then Z.max (len + i) 0 else Z.min i len in
  let from := clamp start in
  let to := match end_ with None => len | Some e => clamp e end in
  String.substring (Z.to_nat from) (Z.to_nat (to - from)) s.

(** Every character of a string satisfies a test (the loop over indices). *)
Fixpoint all_chars (p : ascii -> bool) (s : string) : bool :=
  match s with
  | EmptyString => true
  | String c s' => p c && all_chars p s'
  end.

(** The digits of radix 36 as [Number.prototype.toString] writes them. *)
Definition digits36 : string := "0123456789abcdefghijklmnopqrstuvwxyz".

(** The digits of an integer as [toString] writes them: the digit of
    [n mod base] before those of the exact quotient, while [n > 0].  Every
    engine writes these digits for an integer below [2^53]; from there on
    ECMAScript leaves the digits to the implementation, and the model goes
    on writing the exact ones.  One turn per binary digit of [n] is enough;
    [fuel] is never exhausted (see [digit_loop_fuel]). *)
Fixpoint digit_loop (fuel : nat) (chars : string) (base n : Z) (out : string)
  : string :=
  match fuel with
  | O => out
  | S fuel' =>
      if 0 <? n
      then digit_loop fuel' chars base (n / base)
             (char_at chars (Z.rem n base) ++ out)
      else out
  end.

Definition loop_fuel (n : Z) : nat := S (Z.to_nat (Z.log2 n)).

(** [num.toString(36)] for an integer [num]. *)
Definition toString36 (num : Z) : string :=
  if num =? 0 then "0"
  else if num <? 0
       then "-" ++ digit_loop (loop_fuel (- num)) digits36 36 (- num) ""
       else digit_loop (loop_fuel num) digits36 36 num "".

(** White space skipped by [parseInt] (code units below 256). *)
Definition is_white_space (c : ascii) : bool :=
  let n := N_of_ascii c in
  ((9 <=? n) && (n <=? 13) || (n =? 32) || (n =? 160))%N.

Fixpoint trim_start (s : string) : string :=
  match s with
  | String c s' => if is_white_space c then trim_start s' else s
  | EmptyString => EmptyString
  end.

(** The value of a digit of radix 36; letters count in either case. *)
Definition digit36_value (c : ascii) : option Z :=
  let n := Z.of_N (N_of_ascii c) in
  if (48 <=? n) && (n <=? 57) then Some (n - 48)
  else if (97 <=? n) && (n <=? 122) then Some (n - 87)
  else if (65 <=? n) && (n <=? 90) then Some (n - 55)
  else None.

(** The digits of the longest prefix made of digits of radix 36. *)
Fixpoint leading_digits (s : string) : list Z :=
  match s with
  | EmptyString => []
  | String c s' =>
      match digit36_value c with
      | Some d => d :: leading_digits s'
      | None => []
      end
  end.

Definition digits_value (base : Z) (ds : list Z) : Z :=
  fold_left (fun acc d => acc * base + d) ds 0.

(** [parseInt(str, 36)]: skip white space, read a sign, read the longest
    run of digits; [NaN] when there is no digit, and otherwise the number
    nearest to the value of the digits.  That is the value itself up to
    [2^53]; beyond, ECMAScript allows an engine an approximation of the
    value, and the model takes the nearest double. *)
Definition parseInt36 (str : string) : number :=
  let s := trim_start str in
  let '(sign, s) :=
    match s with
    | String "-" s' => (-1, s')
    | String "+" s' => (1, s')
    | _ => (1, s)
    end in
  match leading_digits s with
  | [] => NaN
  | ds => of_Q (inject_Z (sign * digits_value 36 ds))
  end.

End Js.

(* ================================================================= *)
(** ** Outcomes and the world *)

(** The errors the class throws, named after what they reject. *)
Inductive error : Type :=
| InvalidPrecision   (* Precision must be "ms" if specified *)
| InvalidBase        (* Base must be either 36 or 62 *)
| InvalidLength      (* Length must be a non-negative integer between 0 and 20 *)
| InvalidCharacter (c : ascii)  (* Invalid character for base *)
| InvalidCount.      (* Count must be a positive integer greater than 1 *)

(** The result of a call: a value, a thrown error, or a loop that is still
    running when the fuel of the model ends. *)
Inductive outcome (A : Type) : Type :=
| Ret (a : A)
| Throw (e : error)
| OutOfFuel.
Arguments Ret {A} a.
Arguments Throw {A} e.
Arguments OutOfFuel {A}.

(** A value of [Math.random()]: [mant / 2^53], in [[0, 1)]. *)
Record unit_interval : Type := mkUnit {
  mant : Z;
  mant_range : (0 <=? mant) && (mant <? 2 ^ 53) = true
}.

(** The clock and the random source: the value of the [k]-th reading of each,
    and how many readings were made so far. *)
Record World : Type := mkWorld {
  time : nat -> Z;
  entropy : nat -> unit_interval;
  reads : nat;
  draws : nat
}.

Definition IO (A : Type) : Type := World -> A * World.

Definition ret {A} (a : A) : IO A := fun w => (a, w).
Definition bind {A B} (m : IO A) (k : A -> IO B) : IO B :=
  fun w => let (a, w') := m w in k a w'.

Notation "x <- m ;; k" := (bind m (fun x => k))
  (at level 61, m at next level, right associativity).

(** [Date.now()]. *)
Definition Date_now : IO Z :=
  fun w => (time w (reads w),
            mkWorld (time w) (entropy w) (S (reads w)) (draws w)).

(** [Math.random()]. *)
Definition Math_random : IO unit_interval :=
  fun w => (entropy w (draws w),
            mkWorld (time w) (entropy w) (reads w) (S (draws w))).

(** [Math.floor(u * n)] for [u = mant / 2^53] in the unit interval and an
    integer [n]: the product is rounded to a double before [Math.floor]. *)
Definition floor_scaled (u : unit_interval) (n : Z) : Z :=
  Qfloor (Js.round (mant u * n # 9007199254740992)).

(* ================================================================= *)
(** ** The class [Uzid] *)

(** The type [36 | 62] of the field [base]. *)
Inductive Base : Type := B36 | B62.

Definition base_value (b : Base) : Z :=
  match b with B36 => 36 | B62 => 62 end.

(** [UzidOptions]; [None] is an option left out.  The constructor is called
    with values outside the declared types, so [base] and [length] are
    numbers and [precision] is a string. *)
Record UzidOptions : Type := mkOptions {
  opt_prefix : option string;
  opt_base : option Js.number;
  opt_length : option Js.number;
  opt_precision : option string
}.

Definition no_options : UzidOptions := mkOptions None None None None.

Record Uzid : Type := mkUzid {
  prefix : string;
  base : Base;
  length : Z;
  chars : string;
  precision : option string
}.

Definition upper_case : string := "ABCDEFGHIJKLMNOPQRSTUVWXYZ".

(** [a || b] on strings: the empty string is falsy. *)
Definition string_or (a : option string) (b : string) : string :=
  match a with
  | Some (String c s) => String c s
  | _ => b
  end.

(** [a || b] on numbers. *)
Definition number_or (a : option Js.number) (b : Js.number) : Js.number :=
  match a with
  | Some x => if Js.truthy x then x else b
  | None => b
  end.

(** [a ?? b]. *)
Definition nullish {A} (a : option A) (b : A) : A :=
  match a with Some x => x | None => b end.

(** A precision that is supplied, truthy and not ["ms"]. *)
Definition bad_precision (p : option string) : bool :=
  match p with
  | Some (String c s) => negb (String.eqb (String c s) "ms")
  | _ => false
  end.

(** The integer a finite integral number stands for. *)
Definition to_Z (x : Js.number) : Z :=
  match x with
  | Js.Finite q => Qnum q / Zpos (Qden q)
  | _ => 0
  end.

Definition constructor (options : UzidOptions) : outcome Uzid :=
  let prefix := string_or (opt_prefix options) "" in
  let base := number_or (opt_base options) (Js.of_Z 36) in
  let length := nullish (opt_length options) (Js.of_Z 4) in
  if bad_precision (opt_precision options) then Throw InvalidPrecision
  else
    let precision := opt_precision options in
    if negb (Js.eqb base (Js.of_Z 36)) && negb (Js.eqb base (Js.of_Z 62))
    then Throw InvalidBase
    else if negb (Js.isInteger length) || Js.ltb length (Js.of_Z 0)
            || Js.ltb (Js.of_Z 20) length
    then Throw InvalidLength
    else
      let base := if Js.eqb base (Js.of_Z 62) then B62 else B36 in
      let chars :=
        Js.digits36 ++ (match base with B62 => upper_case | B36 => "" end) in
      Ret (mkUzid prefix base (to_Z length) chars precision).

(** [this.precision === "ms" ? 1 : 1000]. *)
Definition unit_of (p : option string) : Z :=
  match p with
  | Some s => if String.eqb s "ms" then 1 else 1000
  | None => 1000
  end.

(** The loop of [toBaseString]: while [n > 0], prepend [chars[n % base]]
    and go on with [Math.floor(n / base)].  A turn at least halves [n], so
    one turn per binary digit of [n] is enough; [fuel] is never exhausted
    (see [encode_loop_fuel]). *)
Fixpoint encode_loop (fuel : nat) (chars : string) (base n : Z) (out : string)
  : string :=
  match fuel with
  | O => out
  | S fuel' =>
      if 0 <? n
      then encode_loop fuel' chars base (Js.Math_floor_div n base)
             (Js.char_at chars (Z.rem n base) ++ out)
      else out
  end.

Definition toBaseString (this : Uzid) (num : Z) (base : Base) : string :=
  match base with
  | B36 => Js.toString36 num
  | B62 =>
      if num =? 0 then "0"
      else encode_loop (Js.loop_fuel num) (chars this) (base_value base) num ""
  end.

(** The loop of [fromBaseString] over the characters of [str]:
    [out = out * base + value], each operation rounded to a double. *)
Fixpoint decode_loop (chars : string) (base : Z) (str : string) (out : Js.number)
  : outcome Js.number :=
  match str with
  | EmptyString => Ret out
  | String char rest =>
      let value := Js.indexOf chars char in
      if value =? -1 then Throw (InvalidCharacter char)
      else decode_loop chars base rest
             (Js.add (Js.mul out (Js.of_Z base)) (Js.of_Z value))
  end.

Definition fromBaseString (this : Uzid) (str : string) (base : Base)
  : outcome Js.number :=
  match base with
  | B36 => Ret (Js.parseInt36 str)
  | B62 => decode_loop (chars this) (base_value base) str (Js.of_Z 0)
  end.

(** The loop of [random]: [n] more characters appended to [s]. *)
Fixpoint random_loop (n : nat) (chars : string) (s : string) : IO string :=
  match n with
  | O => ret s
  | S n' =>
      u <- Math_random ;;
      random_loop n' chars
        (s ++ Js.char_at chars
                (floor_scaled u (Z.of_nat (String.length chars))))
  end.

Definition random (this : Uzid) : IO string :=
  random_loop (Z.to_nat (length this)) (chars this) "".

Definition single (this : Uzid) : IO string :=
  now <- Date_now ;;
  let ts := now / unit_of (precision this) in
  let stamp := toBaseString this ts (base this) in
  r <- random this ;;
  ret (prefix this ++ stamp ++ r).

Definition verify (this : Uzid) (id : string) : bool :=
  if (String.length id =? 0)%nat || negb (Js.startsWith id (prefix this))
  then false
  else
    let withoutPrefix :=
      Js.slice id (Z.of_nat (String.length (prefix this))) None in
    if (String.length withoutPrefix =? 0)%nat then false
    else if negb (Js.all_chars (Js.includes (chars this)) withoutPrefix)
    then false
    else
      let randomPart :=
        if length this =? 0 then ""
        else Js.slice withoutPrefix (- length this) None in
      if negb (Z.of_nat (String.length randomPart) =? length this) then false
      else
        let timestampPart :=
          if length this =? 0 then withoutPrefix
          else Js.slice withoutPrefix 0 (Some (- length this)) in
        match fromBaseString this timestampPart (base this) with
        | Ret decoded =>
            negb (Js.isNaN
                    (Js.Date_getTime
                       (Js.mul decoded (Js.of_Z (unit_of (precision this))))))
        | _ => false
        end.

(** The code unit order on strings, as [Array.prototype.sort] uses it. *)
Module StringOrder <: TotalLeBool.
Definition t := string.
Definition leb := String.leb.
Theorem leb_total : forall a1 a2, leb a1 a2 = true \/ leb a2 a1 = true.
Proof. exact String.leb_total. Qed.
End StringOrder.

Module StringSort := Sort StringOrder.

(** A [Set] of strings: its members in insertion order. *)
Definition StringSet : Type := list string.

Definition Set_has (ids : StringSet) (id : string) : bool :=
  existsb (String.eqb id) ids.

Definition Set_add (ids : StringSet) (id : string) : StringSet :=
  if Set_has ids id then ids else (ids ++ [id])%list.

Definition Set_size (ids : StringSet) : Js.number :=
  Js.of_Z (Z.of_nat (List.length ids)).

(** The loop of [multiple]; [fuel] bounds the number of turns. *)
Fixpoint multiple_loop (fuel : nat) (this : Uzid) (count : Js.number)
  (ids : StringSet) (w : World) : outcome (list string) * World :=
  if Js.ltb (Set_size ids) count
  then match fuel with
       | O => (OutOfFuel, w)
       | S fuel' =>
           let (id, w') := single this w in
           multiple_loop fuel' this count (Set_add ids id) w'
       end
  else (Ret (StringSort.sort ids), w).

Definition multiple (fuel : nat) (this : Uzid) (count : Js.number) (w : World)
  : outcome (list string) * World :=
  if negb (Js.isInteger count) || Js.ltb count (Js.of_Z 2)
  then (Throw InvalidCount, w)
  else multiple_loop fuel this count [] w.

(** [generate(count?)]: one identifier, or a batch. *)
Definition generate (fuel : nat) (this : Uzid) (count : option Js.number)
  (w : World) : outcome (string + list string) * World :=
  match count with
  | None => let (id, w') := single this w in (Ret (inl id), w')
  | Some count =>
      match multiple fuel this count w with
      | (Ret ids, w') => (Ret (inr ids), w')
      | (Throw e, w') => (Throw e, w')
      | (OutOfFuel, w') => (OutOfFuel, w')
      end
  end.

(* ================================================================= *)
(** ** Definitions used by the statements *)

Definition chars36 : string := Js.digits36.
Definition chars62 : string := Js.digits36 ++ upper_case.

Definition chars_of (b : Base) : string :=
  match b with B36 => chars36 | B62 => chars62 end.

(** The digit [d] of an alphabet is a character that the alphabet finds at
    index [d], that it includes, and, for a digit below 36, that [parseInt]
    reads as [d]. *)
Definition digit_ok (alphabet : string) (d : Z) : bool :=
  match String.get (Z.to_nat d) alphabet with
  | Some c =>
      (Js.indexOf alphabet c =? d) && Js.includes alphabet c
      && (if d <? 36
          then match Js.digit36_value c with Some v => v =? d | None => false end
          else true)
  | None => false
  end.

(** The loop of the decoder in exact integers: the value of a text in an
    alphabet, which the program computes as long as it stays within
    [2^53] (see [decode_loop_exact]). *)
Fixpoint exact_decode (chars : string) (base : Z) (str : string) (out : Z)
  : outcome Z :=
  match str with
  | EmptyString => Ret out
  | String char rest =>
      let value := Js.indexOf chars char in
      if value =? -1 then Throw (InvalidCharacter char)
      else exact_decode chars base rest (out * base + value)
  end.

(** A number that is an integer of at least [bound], or positive
    infinity. *)
Definition at_least (bound : Z) (x : Js.number) : Prop :=
  x = Js.Infinity false \/ exists z, x = Js.of_Z z /\ bound <= z.

(** The last steps of [verify]: decode the timestamp part and ask whether it
    is a date. *)
Definition decodes_to_date (this : Uzid) (timestampPart : string) : bool :=
  match fromBaseString this timestampPart (base this) with
  | Ret decoded =>
      negb (Js.isNaN
              (Js.Date_getTime
                 (Js.mul decoded (Js.of_Z (unit_of (precision this))))))
  | _ => false
  end.

(** The identifiers of the first [k] calls of [single]. *)
Fixpoint draw_ids (k : nat) (this : Uzid) (w : World) : list string :=
  match k with
  | O => []
  | S k' => let (id, w') := single this w in id :: draw_ids k' this w'
  end.

(** The order of [sort]: each member is at most the next one. *)
Definition ascending (l : list string) : Prop :=
  forall i a b, nth_error l i = Some a -> nth_error l (S i) = Some b ->
                String.leb a b = true.

(** In the alphabet of base 36 the characters are in code unit order: a
    smaller digit is a smaller character. *)
Definition digit_order_ok (d1 d2 : nat) : bool :=
  match String.get d1 chars36, String.get d2 chars36 with
  | Some c1, Some c2 =>
      if (d1 <? d2)%nat
      then match Ascii.compare c1 c2 with Lt => true | _ => false end
      else true
  | _, _ => false
  end.

(** [new Uzid()]. *)
Definition default_uzid : Uzid := mkUzid "" B36 4 chars36 None.

(** [new Uzid({ prefix: "srv", base: 62, length: 6, precision: "ms" })]. *)
Definition options62 : UzidOptions :=
  mkOptions (Some "srv") (Some (Js.of_Z 62)) (Some (Js.of_Z 6)) (Some "ms").
Definition uzid62 : Uzid := mkUzid "srv" B62 6 chars62 (Some "ms").

(** [new Uzid({ prefix: "ab" })] and [new Uzid({ prefix: "a" })]. *)
Definition options_ab : UzidOptions := mkOptions (Some "ab") None None None.
Definition options_a : UzidOptions := mkOptions (Some "a") None None None.
Definition uzid_ab : Uzid := mkUzid "ab" B36 4 chars36 None.
Definition uzid_a : Uzid := mkUzid "a" B36 4 chars36 None.

(** [new Uzid({ prefix: "test" })] and [new Uzid({ prefix: "wrong" })]. *)
Definition uzid_test : Uzid := mkUzid "test" B36 4 chars36 None.
Definition uzid_wrong : Uzid := mkUzid "wrong" B36 4 chars36 None.

(** Some values of [Math.random()], repeated for ever. *)
Definition sample_draws : list unit_interval :=
  [ mkUnit 12345 eq_refl;
    mkUnit 562949953433657 eq_refl;
    mkUnit 1125899906854969 eq_refl;
    mkUnit 1688849860276281 eq_refl;
    mkUnit 2251799813697593 eq_refl;
    mkUnit 2814749767118905 eq_refl;
    mkUnit 3377699720540217 eq_refl;
    mkUnit 8444249301331001 eq_refl;
    mkUnit 6755399441067913 eq_refl;
    mkUnit 4503599627382841 eq_refl;
    mkUnit 9007199254740991 eq_refl ].

Definition sample_entropy (k : nat) : unit_interval :=
  nth (k mod 11) sample_draws (mkUnit 0 eq_refl).

(** A clock that advances by one millisecond at every reading. *)
Definition sample_world : World :=
  mkWorld (fun k => 1700000000000 + Z.of_nat k) sample_entropy 0 0.

(** A clock that advances by one millisecond at each of its first thousand
    readings, and then stands still. *)
Definition steady_world : World :=
  mkWorld (fun k => 1700000000000 + Z.of_nat (Nat.min k 1000)) sample_entropy 0 0.

(** A world whose clock stands still at [t]. *)
Definition world_at (t : Z) : World :=
  mkWorld (fun _ => t) sample_entropy 0 0.

(** The world after some more readings of the clock and of the random
    source. *)
Definition advance (w : World) (clock_reads random_draws : nat) : World :=
  mkWorld (time w) (entropy w) (reads w + clock_reads) (draws w + random_draws).

(** The timestamp that [single] encodes in a world: the next reading of the
    clock, in the unit of the generator. *)
Definition timestamp (this : Uzid) (w : World) : Z :=
  time w (reads w) / unit_of (precision this).

(** The number of characters of the random suffix. *)
Definition suffix_length (this : Uzid) : nat := Z.to_nat (length this).

(** A character of an alphabet is found at an index below the base, it is
    the digit at that index, and, in the alphabet of base 36, [parseInt]
    reads it as that index. *)
Definition char_ok (b : Base) (c : ascii) : bool :=
  let i := Js.indexOf (chars_of b) c in
  if Js.includes (chars_of b) c
  then (0 <=? i) && (i <? base_value b)
       && String.eqb (Js.char_at (chars_of b) i) (String c "")
       && match b with
          | B36 => match Js.digit36_value c with Some v => v =? i | None => false end
          | B62 => true
          end
  else true.

(** A text is canonical when it is [0] or does not start with [0]. *)
Definition canonical (s : string) : bool :=
  match s with
  | EmptyString => false
  | String c rest => negb (Ascii.eqb c "0") || String.eqb rest ""
  end.

(** The base and the length the constructor goes on with: the option, or
    its default. *)
Definition chosen_base (options : UzidOptions) : Js.number :=
  number_or (opt_base options) (Js.of_Z 36).

Definition chosen_length (options : UzidOptions) : Js.number :=
  nullish (opt_length options) (Js.of_Z 4).

(* ================================================================= *)
(** ** Rounding to doubles *)

Lemma nearest_even_bounds (n d : Z) :
  0 < d -> n / d <= Js.nearest_even n d <= n / d + 1.
Proof.
  intros Hd. unfold Js.nearest_even.
  destruct (2 * (n mod d) <? d); [lia|].
  destruct (d <? 2 * (n mod d)); [lia|].
  destruct (Z.even (n / d)); lia.
Qed.

Lemma nearest_even_exact (z d : Z) : 0 < d -> Js.nearest_even (z * d) d = z.
Proof.
  intros Hd. unfold Js.nearest_even.
  rewrite Z.mod_mul, Z.div_mul by lia.
  destruct (Z.ltb_spec (2 * 0) d); [reflexivity | lia].
Qed.

Lemma nearest_even_ge (n d i : Z) :
  0 < d -> i * d <= n -> i <= Js.nearest_even n d.
Proof.
  intros Hd Hi. pose proof (nearest_even_bounds n d Hd).
  assert (i <= n / d) by (apply Z.div_le_lower_bound; lia). lia.
Qed.

Lemma nearest_even_lt (n d i : Z) :
  0 < d -> 2 * n < (2 * i - 1) * d -> Js.nearest_even n d < i.
Proof.
  intros Hd Hi. unfold Js.nearest_even.
  pose proof (Z.div_mod n d ltac:(lia)) as E.
  pose proof (Z.mod_pos_bound n d Hd) as M.
  set (q := n / d) in *. set (r := n mod d) in *.
  assert (Hq : q < i) by nia.
  destruct (Z.ltb_spec (2 * r) d); [lia|].
  assert (q + 1 < i) by nia.
  destruct (d <? 2 * r); [lia|]. destruct (Z.even q); lia.
Qed.

(** [Js.log2_ratio a b] is the exponent of the binade of [a / b]. *)
Lemma log2_ratio_spec (a : Z) (b : positive) :
  0 < a ->
  let k := Js.log2_ratio a b in
  (0 <= k -> Zpos b * 2 ^ k <= a < Zpos b * 2 ^ (k + 1))
  /\ (k < 0 -> Zpos b * 2 ^ 0 <= a * 2 ^ (- k) /\ a * 2 ^ (- k) < Zpos b * 2).
Proof.
  intros Ha. cbv zeta. unfold Js.log2_ratio.
  pose proof (Z.log2_spec a Ha) as [A1 A2].
  pose proof (Z.log2_spec (Zpos b) eq_refl) as [B1 B2].
  pose proof (Z.log2_nonneg a) as LA. pose proof (Z.log2_nonneg (Zpos b)) as LB.
  set (la := Z.log2 a) in *. set (lb := Z.log2 (Zpos b)) in *.
  rewrite !Z.pow_succ_r in * by lia.
  assert (P0 : forall x, 0 <= x -> 0 < 2 ^ x) by (intros; apply Z.pow_pos_nonneg; lia).
  destruct (Z.leb_spec 0 (la - lb)) as [Hd|Hd].
  - (* d >= 0 *)
    assert (Ela : 2 ^ la = 2 ^ lb * 2 ^ (la - lb))
      by (rewrite <- Z.pow_add_r by lia; f_equal; lia).
    pose proof (P0 (la - lb) Hd). pose proof (P0 lb LB).
    destruct (Z.leb_spec (Zpos b * 2 ^ (la - lb)) a) as [Hc|Hc].
    + split; [|lia]. intros _. split; [assumption|].
      replace (la - lb + 1) with (Z.succ (la - lb)) by lia.
      rewrite Z.pow_succ_r by lia. nia.
    + destruct (Z.eq_dec (la - lb) 0) as [E0|N0].
      * (* k = -1 *)
        replace (la - lb - 1) with (-1) by lia. split; [lia|]. intros _.
        change (- -1) with 1. change (2 ^ 1) with 2. change (2 ^ 0) with 1.
        rewrite E0 in *. change (2 ^ 0) with 1 in *. nia.
      * split; [|lia]. intros _.
        replace (la - lb - 1 + 1) with (la - lb) by lia.
        assert (E1 : 2 ^ (la - lb) = 2 * 2 ^ (la - lb - 1)).
        { rewrite <- Z.pow_succ_r by lia. f_equal. lia. }
        pose proof (P0 (la - lb - 1) ltac:(lia)). split; [nia | lia].
  - (* d < 0 *)
    assert (Elb : 2 ^ lb = 2 ^ la * 2 ^ (- (la - lb)))
      by (rewrite <- Z.pow_add_r by lia; f_equal; lia).
    pose proof (P0 (- (la - lb)) ltac:(lia)). pose proof (P0 la LA).
    change (2 ^ 0) with 1.
    destruct (Z.leb_spec (Zpos b) (a * 2 ^ (- (la - lb)))) as [Hc|Hc].
    + split; [lia|]. intros _. split; [lia | nia].
    + split; [lia|]. intros _.
      replace (- (la - lb - 1)) with (Z.succ (- (la - lb))) by lia.
      rewrite Z.pow_succ_r by lia. split; [nia | lia].
Qed.

Lemma pow2_pos (x : Z) : 0 <= x -> 0 < 2 ^ x.
Proof. intros. apply Z.pow_pos_nonneg; lia. Qed.

Lemma Qred_integer (z d : Z) (p : positive) :
  Zpos p = d -> Qred (z * d # p) = inject_Z z.
Proof.
  intros Hp.
  rewrite (Qred_complete (z * d # p) (inject_Z z)).
  - apply Qred_identity. simpl. apply Z.gcd_1_r.
  - unfold Qeq, inject_Z. simpl. lia.
Qed.

(** Rounding an integer: exact up to [2^53], and never below [2^53] from
    there on. *)
Lemma round_integer (z : Z) :
  0 <= z ->
  exists z', Js.round (z # 1) = inject_Z z'
             /\ (z <= 2 ^ 53 -> z' = z)
             /\ (2 ^ 53 <= z -> 2 ^ 53 <= z').
Proof.
  intros Hz. destruct z as [|p|p]; [exists 0; repeat split; lia | | lia].
  unfold Js.round. cbn [Qnum Qden]. unfold Js.round_pos.
  destruct (log2_ratio_spec (Zpos p) 1 eq_refl) as [Hk Hk'].
  set (k := Js.log2_ratio (Zpos p) 1) in *. clearbody k.
  assert (Hk0 : 0 <= k).
  { destruct (Z.lt_ge_cases k 0) as [Hn|]; [|assumption].
    destruct (Hk' Hn) as [_ H2]. pose proof (pow2_pos (- k) ltac:(lia)).
    assert (2 <= 2 ^ (- k)).
    { replace (- k) with (Z.succ (- k - 1)) by lia.
      rewrite Z.pow_succ_r by lia. pose proof (pow2_pos (- k - 1) ltac:(lia)). lia. }
    nia. }
  destruct (Hk Hk0) as [H1 H2]. clear Hk Hk'.
  rewrite Z.mul_1_l in H1, H2.
  rewrite Z.max_l by lia.
  destruct (Z.leb_spec 0 (k - 52)) as [He|He].
  - (* at least 2^52: the result is a multiple of 2^(k-52) *)
    rewrite Z.mul_1_l.
    pose proof (pow2_pos (k - 52) He) as HP.
    assert (Ek : 2 ^ k = 2 ^ 52 * 2 ^ (k - 52))
      by (rewrite <- Z.pow_add_r by lia; f_equal; lia).
    eexists. split; [reflexivity|]. split.
    + intros Hle.
      assert (k <= 53).
      { destruct (Z.le_gt_cases k 53); [assumption|].
        assert (2 ^ 54 <= 2 ^ k) by (apply Z.pow_le_mono_r; lia).
        assert (2 ^ 53 < 2 ^ 54) by reflexivity. lia. }
      assert (Hc : k = 52 \/ k = 53) by lia. destruct Hc as [->| ->].
      * change (2 ^ (52 - 52)) with 1. rewrite Z.mul_1_r.
        rewrite <- (Z.mul_1_r (Zpos p)) at 1. apply nearest_even_exact. lia.
      * change (2 ^ (53 - 52)) with 2.
        assert (Zpos p = 2 ^ 52 * 2) by (change (2 ^ 52 * 2) with (2 ^ 53); lia).
        rewrite H0 at 1. rewrite nearest_even_exact by lia. lia.
    + intros Hge.
      assert (2 ^ 52 <= Js.nearest_even (Zpos p) (2 ^ (k - 52)))
        by (apply nearest_even_ge; lia).
      assert (52 < k \/ k = 52) by lia. destruct H0 as [Hgt|E52].
      * assert (2 ^ 53 <= 2 ^ k) by (apply Z.pow_le_mono_r; lia). nia.
      * subst k. change (2 ^ (52 + 1)) with (2 ^ 53) in H2. lia.
  - (* below 2^52: exact *)
    destruct (Z.leb_spec 0 (k - 52)) as [?|_]; [lia|].
    pose proof (pow2_pos (- (k - 52)) ltac:(lia)) as HP.
    exists (Zpos p). change (Zpos 1) with 1.
    rewrite <- (Z.mul_1_r (_ * _)) at 1. rewrite nearest_even_exact by lia.
    split; [|split; [reflexivity|]].
    + apply Qred_integer. rewrite Z2Pos.id by lia. reflexivity.
    + intros Hge. assert (2 ^ k < 2 ^ 53) by (apply Z.pow_lt_mono_r; lia). lia.
Qed.

(** Below [2^53] the quotient of the program is the integer quotient. *)
Lemma Math_floor_div_exact (n b : Z) :
  0 <= n < 2 ^ 53 -> 0 < b < 2 ^ 53 -> Js.Math_floor_div n b = n / b.
Proof.
  intros Hn Hb. unfold Js.Math_floor_div.
  destruct n as [|p|p]; [now rewrite Z.div_0_l by lia | | lia].
  destruct b as [|bp|bp]; try lia. cbn [Z.to_pos].
  unfold Js.round. cbn [Qnum Qden]. unfold Js.round_pos.
  destruct (log2_ratio_spec (Zpos p) bp eq_refl) as [Hk Hk'].
  set (k := Js.log2_ratio (Zpos p) bp) in *. clearbody k.
  set (n := Zpos p) in *. set (b := Zpos bp) in *.
  pose proof (Z.div_mod n b ltac:(lia)) as Edm.
  pose proof (Z.mod_pos_bound n b ltac:(lia)) as Mb.
  assert (Hq0 : 0 <= n / b) by (apply Z.div_pos; lia).
  set (q := n / b) in *. set (r := n mod b) in *.
  assert (Hklo : -53 <= k).
  { destruct (Z.le_gt_cases (-53) k); [assumption|].
    destruct (Hk' ltac:(lia)) as [_ H2].
    assert (2 ^ 54 <= 2 ^ (- k)) by (apply Z.pow_le_mono_r; lia).
    assert (2 * 2 ^ 53 = 2 ^ 54) by reflexivity. nia. }
  assert (Hkhi : k <= 52).
  { destruct (Z.le_gt_cases k 52); [assumption|].
    destruct (Hk ltac:(lia)) as [H1 _].
    assert (2 ^ 53 <= 2 ^ k) by (apply Z.pow_le_mono_r; lia). nia. }
  rewrite Z.max_l by lia.
  destruct (Z.leb_spec 0 (k - 52)) as [He|He].
  - assert (k = 52) by lia. subst k. change (2 ^ (52 - 52)) with 1.
    rewrite !Z.mul_1_r. destruct (Hk ltac:(lia)) as [H1 _].
    assert (b = 1) by (assert (2 * 2 ^ 52 = 2 ^ 53) by reflexivity; nia).
    rewrite Qfloor_Z. unfold q. rewrite H. rewrite Z.div_1_r.
    rewrite <- (Z.mul_1_r n) at 1. apply nearest_even_exact. lia.
  - set (E := 2 ^ (- (k - 52))).
    assert (HE : 0 < E) by (apply pow2_pos; lia).
    assert (HbE : b < 2 * E).
    { destruct (Z.lt_ge_cases k 0) as [Hneg|Hpos].
      - destruct (Hk' Hneg) as [H1 _]. change (2 ^ 0) with 1 in H1.
        assert (E = 2 ^ 52 * 2 ^ (- k))
          by (unfold E; rewrite <- Z.pow_add_r by lia; f_equal; lia).
        pose proof (pow2_pos (- k) ltac:(lia)).
        assert (2 * 2 ^ 52 = 2 ^ 53) by reflexivity. nia.
      - destruct (Hk Hpos) as [H1 _].
        assert (E * 2 ^ k = 2 ^ 52)
          by (unfold E; rewrite <- Z.pow_add_r by lia; f_equal; lia).
        pose proof (pow2_pos k Hpos).
        assert (2 * 2 ^ 52 = 2 ^ 53) by reflexivity. nia. }
    set (m := Js.nearest_even (n * E) b).
    assert (Hlo : q * E <= m) by (apply nearest_even_ge; nia).
    assert (Hhi : m < (q + 1) * E) by (apply nearest_even_lt; nia).
    rewrite (Qfloor_comp _ _ (Qred_correct _)).
    unfold Qfloor. rewrite Z2Pos.id by lia.
    symmetry. apply Z.div_unique with (m - q * E); lia.
Qed.

(** From [2^53] on the quotient of the program stays within these bounds. *)
Lemma Math_floor_div_big (n b : Z) :
  2 ^ 53 <= n -> 4 <= b <= 64 ->
  2 ^ 53 / b <= Js.Math_floor_div n b /\ 2 * Js.Math_floor_div n b <= n.
Proof.
  intros Hn Hb. unfold Js.Math_floor_div.
  assert (P53 : 0 < 2 ^ 53) by reflexivity.
  destruct n as [|p|p]; try lia.
  destruct b as [|bp|bp]; try lia. cbn [Z.to_pos].
  unfold Js.round. cbn [Qnum Qden]. unfold Js.round_pos.
  destruct (log2_ratio_spec (Zpos p) bp eq_refl) as [Hk Hk'].
  set (k := Js.log2_ratio (Zpos p) bp) in *. clearbody k.
  set (n := Zpos p) in *. set (b := Zpos bp) in *.
  pose proof (Z.div_mod (2 ^ 53) b ltac:(lia)) as Edm.
  pose proof (Z.mod_pos_bound (2 ^ 53) b ltac:(lia)) as Mb.
  assert (HQ0 : 0 <= 2 ^ 53 / b) by (apply Z.div_pos; lia).
  set (Q0 := 2 ^ 53 / b) in *.
  assert (Hklo : 46 <= k).
  { destruct (Z.le_gt_cases 46 k); [assumption|].
    assert (2 ^ 53 = 2 ^ 7 * 2 ^ 46) by reflexivity.
    destruct (Z.lt_ge_cases k 0) as [Hneg|Hpos].
    - destruct (Hk' Hneg) as [_ H2]. pose proof (pow2_pos (- k) ltac:(lia)). nia.
    - destruct (Hk Hpos) as [_ H2].
      assert (2 ^ (k + 1) <= 2 ^ 46) by (apply Z.pow_le_mono_r; lia).
      assert (2 ^ 7 = 128) by reflexivity. nia. }
  destruct (Hk ltac:(lia)) as [H1 H2]. clear Hk Hk'.
  rewrite Z.max_l by lia.
  destruct (Z.leb_spec 0 (k - 52)) as [He|He].
  - set (P := 2 ^ (k - 52)).
    assert (HP : 0 < P) by (apply pow2_pos; lia).
    assert (Ek : 2 ^ k = 2 ^ 52 * P)
      by (unfold P; rewrite <- Z.pow_add_r by lia; f_equal; lia).
    set (m := Js.nearest_even n (b * P)).
    assert (Hlo : 2 ^ 52 <= m) by (apply nearest_even_ge; nia).
    pose proof (nearest_even_bounds n (b * P) ltac:(nia)) as [_ Hup]. fold m in Hup.
    pose proof (Z.mul_div_le n (b * P) ltac:(nia)) as Hfl.
    rewrite Qfloor_Z.
    assert (2 * 2 ^ 52 = 2 ^ 53) by reflexivity.
    assert (0 < 2 ^ 52) by reflexivity.
    split; [nia|].
    assert (m * (b * P) <= n + b * P) by nia.
    nia.
  - set (E := 2 ^ (- (k - 52))).
    assert (HE : 0 < E) by (apply pow2_pos; lia).
    assert (HE2 : 2 <= E).
    { unfold E. replace (- (k - 52)) with (Z.succ (- (k - 52) - 1)) by lia.
      rewrite Z.pow_succ_r by lia. pose proof (pow2_pos (- (k - 52) - 1) ltac:(lia)). lia. }
    set (m := Js.nearest_even (n * E) b).
    assert (Hlo : Q0 * E <= m) by (apply nearest_even_ge; nia).
    pose proof (nearest_even_bounds (n * E) b ltac:(lia)) as [_ Hup]. fold m in Hup.
    pose proof (Z.mul_div_le (n * E) b ltac:(lia)) as Hfl.
    rewrite (Qfloor_comp _ _ (Qred_correct _)).
    unfold Qfloor. rewrite Z2Pos.id by lia.
    split.
    + apply Z.div_le_lower_bound; lia.
    + pose proof (Z.mul_div_le m E HE).
      assert (m * b <= n * E + b) by nia.
      assert (E * (m / E) * b <= n * E + b) by nia.
      nia.
Qed.

(* ================================================================= *)
(** ** Arithmetic on integers *)

Lemma pow_53_1024 : 2 ^ 53 < 2 ^ 1024.
Proof. apply Z.pow_lt_mono_r; lia. Qed.

Lemma overflow_check (z : Z) :
  Qle_bool (inject_Z (2 ^ 1024)) (Qabs (inject_Z z)) = (2 ^ 1024 <=? Z.abs z).
Proof.
  unfold Qle_bool, Qabs, inject_Z. cbn [Qnum Qden]. now rewrite !Z.mul_1_r.
Qed.

(** An integer up to [2^53] is a double. *)
Lemma of_Q_exact (z : Z) :
  0 <= z <= 2 ^ 53 -> Js.of_Q (inject_Z z) = Js.of_Z z.
Proof.
  intros Hz. unfold Js.of_Q.
  destruct (round_integer z ltac:(lia)) as (z' & Hr & Hexact & _).
  change (inject_Z z) with (z # 1). rewrite Hr, (Hexact ltac:(lia)), overflow_check.
  pose proof pow_53_1024.
  destruct (Z.leb_spec (2 ^ 1024) (Z.abs z)); [lia | reflexivity].
Qed.

(** An integer from [2^53] on rounds to an integer from [2^53] on, or to
    infinity. *)
Lemma of_Q_past (z : Z) :
  2 ^ 53 <= z -> at_least (2 ^ 53) (Js.of_Q (inject_Z z)).
Proof.
  intros Hz. unfold Js.of_Q.
  assert (0 < 2 ^ 53) by reflexivity.
  destruct (round_integer z ltac:(lia)) as (z' & Hr & _ & Hbig).
  specialize (Hbig Hz).
  change (inject_Z z) with (z # 1). rewrite Hr, overflow_check.
  destruct (Z.leb_spec (2 ^ 1024) (Z.abs z')).
  - left. cbn [inject_Z Qnum]. destruct (Z.ltb_spec z' 0); [lia | reflexivity].
  - right. exists z'. split; [reflexivity | assumption].
Qed.

(** And so is its opposite. *)
Lemma of_Q_exact_abs (z : Z) :
  Z.abs z <= 2 ^ 53 -> Js.of_Q (inject_Z z) = Js.of_Z z.
Proof.
  intros Hz. destruct z as [|p|p]; try (apply of_Q_exact; lia).
  pose proof (of_Q_exact (Zpos p) ltac:(lia)) as H.
  unfold Js.of_Q in *. unfold Js.round in *. cbn [inject_Z Qnum Qden] in *.
  destruct (Qle_bool _ (Qabs (Js.round_pos (Zpos p) 1))) eqn:E; [discriminate|].
  injection H as H. rewrite H in *.
  change (Qabs (- inject_Z (Zpos p))) with (Qabs (inject_Z (Zpos p))).
  rewrite E. reflexivity.
Qed.

Lemma mul_of_Z (a b : Z) :
  Js.mul (Js.of_Z a) (Js.of_Z b) = Js.of_Q (inject_Z (a * b)).
Proof. reflexivity. Qed.

Lemma add_of_Z (a b : Z) :
  Js.add (Js.of_Z a) (Js.of_Z b) = Js.of_Q (inject_Z (a + b)).
Proof.
  unfold Js.add, Js.of_Z, inject_Z, Qplus. cbn [Qnum Qden].
  now rewrite !Z.mul_1_r.
Qed.

Lemma at_least_weaken (b1 b2 : Z) (x : Js.number) :
  b2 <= b1 -> at_least b1 x -> at_least b2 x.
Proof.
  intros Hb [->|(z & -> & Hz)]; [now left | right; exists z; split; [reflexivity | lia]].
Qed.

(** One turn of the decoder, base 62, on a number of at least [2^53 / 62]:
    the result is within 8 of [2^53] at least. *)
Lemma decode_step_past (x : Js.number) (d : Z) :
  at_least (2 ^ 53 / 62) x -> 0 <= d ->
  at_least (2 ^ 53 - 8) (Js.add (Js.mul x (Js.of_Z 62)) (Js.of_Z d)).
Proof.
  assert (E0 : 2 ^ 53 / 62 = 145277407334532) by reflexivity.
  assert (E1 : 2 ^ 53 = 9007199254740992) by reflexivity.
  intros [->|(z & -> & Hz)] Hd; [now left|].
  rewrite mul_of_Z.
  assert (Hsum : forall y, 2 ^ 53 - 8 <= y -> 0 <= y ->
            at_least (2 ^ 53 - 8) (Js.of_Q (inject_Z y))).
  { intros y Hy Hy0. destruct (Z.le_gt_cases y (2 ^ 53)).
    - rewrite of_Q_exact by lia. right. exists y. split; [reflexivity | lia].
    - apply (at_least_weaken (2 ^ 53)); [lia | apply of_Q_past; lia]. }
  destruct (Z.le_gt_cases (z * 62) (2 ^ 53)) as [Hle|Hgt].
  - rewrite of_Q_exact, add_of_Z by lia. apply Hsum; lia.
  - destruct (of_Q_past (z * 62) ltac:(lia)) as [->|(z' & -> & Hz')]; [now left|].
    rewrite add_of_Z. apply Hsum; lia.
Qed.

(* ================================================================= *)
(** ** Strings *)

Section StringFacts.

Lemma append_nil_r (s : string) : s ++ "" = s.
Proof. induction s as [|c s IH]; simpl; [reflexivity | now rewrite IH]. Qed.

Lemma append_assoc (a b c : string) : (a ++ b) ++ c = a ++ (b ++ c).
Proof. induction a as [|x a IH]; simpl; [reflexivity | now rewrite IH]. Qed.

Lemma length_append (a b : string) :
  String.length (a ++ b) = (String.length a + String.length b)%nat.
Proof. induction a as [|x a IH]; simpl; [reflexivity | now rewrite IH]. Qed.

Lemma substring_all (s : string) : String.substring 0 (String.length s) s = s.
Proof. induction s as [|c s IH]; simpl; [reflexivity | now rewrite IH]. Qed.

Lemma substring_none (s : string) : String.substring 0 0 s = "".
Proof. destruct s; reflexivity. Qed.

Lemma substring_skip (a b : string) (m : nat) :
  String.substring (String.length a) m (a ++ b) = String.substring 0 m b.
Proof. induction a as [|x a IH]; simpl; [reflexivity | exact IH]. Qed.

Lemma substring_take (a b : string) :
  String.substring 0 (String.length a) (a ++ b) = a.
Proof.
  induction a as [|x a IH]; simpl; [apply substring_none | now rewrite IH].
Qed.

Lemma prefix_append (p s : string) : String.prefix p (p ++ s) = true.
Proof.
  induction p as [|c p IH]; simpl.
  - destruct s; reflexivity.
  - destruct (ascii_dec c c) as [_|N]; [exact IH | now elim N].
Qed.

Lemma all_chars_append (p : ascii -> bool) (a b : string) :
  Js.all_chars p (a ++ b) = Js.all_chars p a && Js.all_chars p b.
Proof.
  induction a as [|x a IH]; simpl; [reflexivity | now rewrite IH, andb_assoc].
Qed.

End StringFacts.

(* ================================================================= *)
(** ** The alphabets *)

Lemma digits_ok (b : Base) (d : Z) :
  0 <= d < base_value b -> digit_ok (chars_of b) d = true.
Proof.
  intros Hd.
  assert (Hall : forallb (fun k => digit_ok (chars_of b) (Z.of_nat k))
                   (seq 0 (Z.to_nat (base_value b))) = true)
    by (destruct b; vm_compute; reflexivity).
  rewrite forallb_forall in Hall.
  specialize (Hall (Z.to_nat d)).
  rewrite Z2Nat.id in Hall by lia.
  apply Hall, in_seq. destruct b; simpl in *; lia.
Qed.

Lemma char_at_digit (b : Base) (d : Z) :
  0 <= d < base_value b ->
  exists c, Js.char_at (chars_of b) d = String c ""
            /\ Js.indexOf (chars_of b) c = d
            /\ Js.includes (chars_of b) c = true
            /\ (d < 36 -> Js.digit36_value c = Some d).
Proof.
  intros Hd. pose proof (digits_ok b d Hd) as Hok.
  unfold digit_ok in Hok. unfold Js.char_at.
  destruct (Z.ltb_spec d 0) as [?|_]; [lia|].
  destruct (String.get (Z.to_nat d) (chars_of b)) as [c|]; [|discriminate].
  exists c. apply andb_prop in Hok as [Hok H36]. apply andb_prop in Hok as [Hi Hin].
  repeat split; try assumption.
  - now apply Z.eqb_eq.
  - intros Hlt. destruct (Z.ltb_spec d 36) as [_|?]; [|lia].
    destruct (Js.digit36_value c) as [v|]; [|discriminate].
    apply Z.eqb_eq in H36. now subst.
Qed.

(** What a successful construction fixes. *)
Lemma constructor_ok (options : UzidOptions) (this : Uzid) :
  constructor options = Ret this ->
  chars this = chars_of (base this) /\ 0 <= length this <= 20.
Proof.
  unfold constructor.
  destruct (bad_precision _); [discriminate|].
  destruct (negb _ && negb _); [discriminate|].
  destruct (negb (Js.isInteger _) || _ || _) eqn:Hlen; [discriminate|].
  intros [= <-]. simpl.
  apply orb_false_elim in Hlen as [Hlen Hhi].
  apply orb_false_elim in Hlen as [Hint Hlo].
  split.
  - now destruct (Js.eqb _ (Js.of_Z 62)).
  - destruct (nullish (opt_length options) (Js.of_Z 4)) as [q| |neg];
      simpl in *; try discriminate.
    apply negb_false_iff in Hint, Hlo, Hhi.
    apply Z.eqb_eq in Hint.
    unfold Qle_bool in Hlo, Hhi. simpl in Hlo, Hhi.
    apply Z.leb_le in Hlo, Hhi.
    pose proof (Z.div_mod (Qnum q) (Zpos (Qden q)) ltac:(lia)) as Hdm.
    nia.
Qed.

(* ================================================================= *)
(** ** Radix conversion *)

Section DigitLoop.

Variables (alphabet : string) (radix : Z).

Lemma digit_loop_out (fuel : nat) (n : Z) (out : string) :
  Js.digit_loop fuel alphabet radix n out
  = Js.digit_loop fuel alphabet radix n "" ++ out.
Proof.
  revert n out. induction fuel as [|fuel IH]; intros n out; simpl.
  - reflexivity.
  - destruct (0 <? n); [|reflexivity].
    rewrite IH, (IH _ (_ ++ "")), append_assoc, append_nil_r. reflexivity.
Qed.

(** One turn of the loop, read from the last digit. *)
Lemma digit_loop_last (fuel : nat) (n : Z) :
  0 < n -> 0 < radix ->
  Js.digit_loop (S fuel) alphabet radix n ""
  = Js.digit_loop fuel alphabet radix (n / radix) ""
    ++ Js.char_at alphabet (n mod radix).
Proof.
  intros Hn Hr. simpl. destruct (Z.ltb_spec 0 n) as [_|?]; [|lia].
  rewrite digit_loop_out, append_nil_r, Z.rem_mod_nonneg by lia. reflexivity.
Qed.

Lemma digit_loop_zero (fuel : nat) (n : Z) (out : string) :
  n <= 0 -> Js.digit_loop fuel alphabet radix n out = out.
Proof.
  intros Hn. destruct fuel; simpl; [reflexivity|].
  destruct (Z.ltb_spec 0 n); [lia | reflexivity].
Qed.

End DigitLoop.

(** The quotient by a radix of at least 2 has one binary digit less. *)
Lemma quotient_bound (radix n : Z) (fuel : nat) :
  2 <= radix -> 0 < n < 2 ^ Z.of_nat (S fuel) ->
  0 <= n / radix < 2 ^ Z.of_nat fuel.
Proof.
  intros Hr [Hn Hlt]. split; [apply Z.div_pos; lia|].
  apply Z.div_lt_upper_bound; [lia|].
  rewrite Nat2Z.inj_succ, Z.pow_succ_r in Hlt by lia.
  assert (0 < 2 ^ Z.of_nat fuel) by (apply Z.pow_pos_nonneg; lia).
  nia.
Qed.

Lemma loop_fuel_enough (n : Z) : 0 < n -> n < 2 ^ Z.of_nat (Js.loop_fuel n).
Proof.
  intros Hn. unfold Js.loop_fuel.
  pose proof (Z.log2_nonneg n). pose proof (Z.log2_spec n Hn) as [_ Hs].
  rewrite Nat2Z.inj_succ, Z2Nat.id by lia. exact Hs.
Qed.

(** The loop never runs out of fuel: more fuel than the binary digits of [n]
    changes nothing. *)
Lemma digit_loop_fuel (alphabet : string) (radix : Z) (fuel extra : nat) (n : Z)
  (out : string) :
  2 <= radix -> 0 <= n < 2 ^ Z.of_nat fuel ->
  Js.digit_loop (fuel + extra) alphabet radix n out
  = Js.digit_loop fuel alphabet radix n out.
Proof.
  intros Hr. revert n out. induction fuel as [|fuel IH]; intros n out Hn.
  - simpl in Hn. assert (n = 0) by lia. subst.
    now rewrite !digit_loop_zero by lia.
  - cbn [Nat.add Js.digit_loop]. destruct (Z.ltb_spec 0 n); [|reflexivity].
    apply IH, quotient_bound; lia.
Qed.

Lemma exact_decode_append (alphabet : string) (radix : Z) (a b : string) (out : Z) :
  exact_decode alphabet radix (a ++ b) out
  = match exact_decode alphabet radix a out with
    | Ret x => exact_decode alphabet radix b x
    | other => other
    end.
Proof.
  revert out. induction a as [|c a IH]; intros out; simpl; [reflexivity|].
  destruct (Js.indexOf alphabet c =? -1); [reflexivity | apply IH].
Qed.

(** Decoding the digits the loop wrote for [n] gives [n] back (base 62). *)
Lemma decode_digit_loop (fuel : nat) (n : Z) :
  0 <= n < 2 ^ Z.of_nat fuel ->
  exact_decode chars62 62 (Js.digit_loop fuel chars62 62 n "") 0 = Ret n.
Proof.
  revert n. induction fuel as [|fuel IH]; intros n Hn.
  - simpl in *. f_equal. lia.
  - destruct (Z.eq_dec n 0) as [->|Hnz]; [reflexivity|].
    rewrite digit_loop_last by lia.
    rewrite exact_decode_append, IH by (apply quotient_bound; lia).
    destruct (char_at_digit B62 (n mod 62)) as (c & Hc & Hi & _).
    { apply Z.mod_pos_bound. reflexivity. }
    change (chars_of B62) with chars62 in Hc, Hi.
    rewrite Hc. cbn [exact_decode]. rewrite Hi.
    pose proof (Z.mod_pos_bound n 62 eq_refl).
    destruct (Z.eqb_spec (n mod 62) (-1)); [lia|].
    f_equal. pose proof (Z.div_mod n 62). lia.
Qed.

(** The digits [parseInt] reads from what the loop wrote for [n] (base 36),
    whatever follows them. *)
Lemma leading_digit_loop (fuel : nat) (n : Z) (rest : string) :
  0 <= n < 2 ^ Z.of_nat fuel ->
  exists ds,
    Js.leading_digits (Js.digit_loop fuel chars36 36 n "" ++ rest)
    = (ds ++ Js.leading_digits rest)%list
    /\ (forall acc, fold_left (fun a d => a * 36 + d) ds acc
                    = acc * 36 ^ Z.of_nat (List.length ds) + n)
    /\ (0 < n -> ds <> []).
Proof.
  revert n rest. induction fuel as [|fuel IH]; intros n rest Hn.
  - exists []. simpl in *. repeat split; intros; lia.
  - destruct (Z.eq_dec n 0) as [->|Hnz].
    { exists []. simpl. repeat split; intros; lia. }
    rewrite digit_loop_last by lia.
    destruct (char_at_digit B36 (n mod 36)) as (c & Hc & _ & _ & Hv).
    { apply Z.mod_pos_bound. reflexivity. }
    change (chars_of B36) with chars36 in Hc.
    pose proof (Z.mod_pos_bound n 36 eq_refl) as Hm.
    specialize (Hv ltac:(lia)).
    rewrite Hc, append_assoc.
    destruct (IH (n / 36) (String c "" ++ rest)) as (ds & Hds & Hval & _).
    { apply quotient_bound; lia. }
    exists (ds ++ [n mod 36])%list. repeat split.
    + rewrite Hds. cbn [Js.leading_digits append]. rewrite Hv, <- app_assoc.
      reflexivity.
    + intros acc. rewrite fold_left_app, Hval, length_app. simpl.
      rewrite Nat2Z.inj_add, Z.pow_add_r by lia.
      pose proof (Z.div_mod n 36). change (36 ^ Z.of_nat 1) with 36. lia.
    + intros _ E. now destruct ds.
Qed.

(** A string that starts with a digit carries neither white space nor a
    sign in front. *)
Lemma parseInt36_digits (s : string) :
  Js.leading_digits s <> [] ->
  Js.parseInt36 s
  = Js.of_Q (inject_Z (Js.digits_value 36 (Js.leading_digits s))).
Proof.
  destruct s as [|c s]; [now intros H|].
  intros H. simpl in H.
  destruct (Js.digit36_value c) as [d|] eqn:Hd; [clear H | now elim H].
  assert (Hw : Js.is_white_space c = false
               /\ Ascii.eqb c "-" = false /\ Ascii.eqb c "+" = false).
  { destruct c as [[] [] [] [] [] [] [] []]; vm_compute in Hd;
      try discriminate; vm_compute; auto. }
  destruct Hw as (Hw & Hminus & Hplus).
  apply Ascii.eqb_neq in Hminus, Hplus.
  unfold Js.parseInt36. simpl Js.trim_start. rewrite Hw.
  assert (Hsign : match String c s with
                  | String "-" s' => (-1, s')
                  | String "+" s' => (1, s')
                  | _ => (1, String c s)
                  end = (1, String c s)).
  { destruct c as [[] [] [] [] [] [] [] []]; try reflexivity;
      [now elim Hplus | now elim Hminus]. }
  rewrite Hsign. simpl Js.leading_digits. rewrite Hd.
  now rewrite Z.mul_1_l.
Qed.

Lemma parseInt36_toString36 (v : Z) :
  0 <= v -> Js.parseInt36 (Js.toString36 v) = Js.of_Q (inject_Z v).
Proof.
  intros Hv. unfold Js.toString36.
  destruct (Z.eqb_spec v 0) as [->|Hnz]; [reflexivity|].
  destruct (Z.ltb_spec v 0) as [?|_]; [lia|].
  destruct (leading_digit_loop (Js.loop_fuel v) v "") as (ds & Hds & Hval & Hne).
  { split; [lia | apply loop_fuel_enough; lia]. }
  rewrite append_nil_r in Hds.
  change (Js.leading_digits "") with (@nil Z) in Hds. rewrite app_nil_r in Hds.
  change Js.digits36 with chars36.
  rewrite parseInt36_digits; rewrite Hds; [|apply Hne; lia].
  unfold Js.digits_value. rewrite Hval. f_equal; lia.
Qed.

(** *** The loops of the program *)

Section EncodeLoop.

Variables (alphabet : string) (radix : Z).

Lemma encode_loop_out (fuel : nat) (n : Z) (out : string) :
  encode_loop fuel alphabet radix n out
  = encode_loop fuel alphabet radix n "" ++ out.
Proof.
  revert n out. induction fuel as [|fuel IH]; intros n out; simpl.
  - reflexivity.
  - destruct (0 <? n); [|reflexivity].
    rewrite IH, (IH _ (_ ++ "")), append_assoc, append_nil_r. reflexivity.
Qed.

(** One turn of the loop, read from the last digit. *)
Lemma encode_loop_last (fuel : nat) (n : Z) :
  0 < n -> 0 < radix ->
  encode_loop (S fuel) alphabet radix n ""
  = encode_loop fuel alphabet radix (Js.Math_floor_div n radix) ""
    ++ Js.char_at alphabet (n mod radix).
Proof.
  intros Hn Hr. simpl. destruct (Z.ltb_spec 0 n) as [_|?]; [|lia].
  rewrite encode_loop_out, append_nil_r, Z.rem_mod_nonneg by lia. reflexivity.
Qed.

Lemma encode_loop_zero (fuel : nat) (n : Z) (out : string) :
  n <= 0 -> encode_loop fuel alphabet radix n out = out.
Proof.
  intros Hn. destruct fuel; simpl; [reflexivity|].
  destruct (Z.ltb_spec 0 n); [lia | reflexivity].
Qed.

(** Below [2^53] the loop writes the exact digits. *)
Lemma encode_loop_exact (fuel : nat) (n : Z) (out : string) :
  0 <= n < 2 ^ 53 -> 0 < radix < 2 ^ 53 ->
  encode_loop fuel alphabet radix n out = Js.digit_loop fuel alphabet radix n out.
Proof.
  intros Hn Hr. revert n out Hn.
  induction fuel as [|fuel IH]; intros n out Hn; simpl; [reflexivity|].
  destruct (Z.ltb_spec 0 n); [|reflexivity].
  rewrite Math_floor_div_exact by lia. apply IH.
  split; [apply Z.div_pos; lia|].
  apply Z.div_lt_upper_bound; [lia|]. nia.
Qed.

End EncodeLoop.

(** A turn of the loop of base 62 leaves a number of one binary digit
    less. *)
Lemma floor_div_bound (n : Z) (fuel : nat) :
  0 < n < 2 ^ Z.of_nat (S fuel) ->
  0 <= Js.Math_floor_div n 62 < 2 ^ Z.of_nat fuel.
Proof.
  intros Hn. assert (P53 : 0 < 2 ^ 53) by reflexivity.
  destruct (Z.lt_ge_cases n (2 ^ 53)) as [Hs|Hb].
  - rewrite Math_floor_div_exact by lia. apply quotient_bound; lia.
  - destruct (Math_floor_div_big n 62 Hb ltac:(lia)) as [H1 H2].
    assert (0 <= 2 ^ 53 / 62) by (apply Z.div_pos; lia).
    rewrite Nat2Z.inj_succ, Z.pow_succ_r in Hn by lia. lia.
Qed.

(** The loop never runs out of fuel: more fuel than the binary digits of [n]
    changes nothing. *)
Lemma encode_loop_fuel (alphabet : string) (fuel extra : nat) (n : Z)
  (out : string) :
  0 <= n < 2 ^ Z.of_nat fuel ->
  encode_loop (fuel + extra) alphabet 62 n out
  = encode_loop fuel alphabet 62 n out.
Proof.
  revert n out. induction fuel as [|fuel IH]; intros n out Hn.
  - simpl in Hn. assert (n = 0) by lia. subst.
    now rewrite !encode_loop_zero by lia.
  - cbn [Nat.add encode_loop]. destruct (Z.ltb_spec 0 n); [|reflexivity].
    apply IH, floor_div_bound; lia.
Qed.

Lemma decode_loop_append (alphabet : string) (radix : Z) (a b : string)
  (out : Js.number) :
  decode_loop alphabet radix (a ++ b) out
  = match decode_loop alphabet radix a out with
    | Ret x => decode_loop alphabet radix b x
    | other => other
    end.
Proof.
  revert out. induction a as [|c a IH]; intros out; simpl; [reflexivity|].
  destruct (Js.indexOf alphabet c =? -1); [reflexivity | apply IH].
Qed.

Lemma indexOf_lower (s : string) (c : ascii) : -1 <= Js.indexOf s c.
Proof.
  induction s as [|d s IH]; simpl; [lia|].
  destruct (Ascii.eqb d c); [lia|].
  destruct (Js.indexOf s c =? -1); lia.
Qed.

(** The exact value of a text is at least the value it starts from. *)
Lemma exact_decode_ge (alphabet : string) (radix : Z) (s : string) (acc z : Z) :
  1 <= radix -> 0 <= acc ->
  exact_decode alphabet radix s acc = Ret z -> acc <= z.
Proof.
  intros Hr. revert acc. induction s as [|c s IH]; intros acc Hacc H; simpl in H.
  - injection H as <-. lia.
  - pose proof (indexOf_lower alphabet c).
    destruct (Z.eqb_spec (Js.indexOf alphabet c) (-1)); [discriminate|].
    apply IH in H; nia.
Qed.

(** The program computes the exact value of a text as long as it stays
    within [2^53]. *)
Lemma decode_loop_exact (alphabet : string) (radix : Z) (s : string) (acc z : Z) :
  1 <= radix -> 0 <= acc -> z <= 2 ^ 53 ->
  exact_decode alphabet radix s acc = Ret z ->
  decode_loop alphabet radix s (Js.of_Z acc) = Ret (Js.of_Z z).
Proof.
  intros Hr. revert acc.
  induction s as [|c s IH]; intros acc Hacc Hz H; cbn [exact_decode decode_loop] in *.
  - now injection H as <-.
  - pose proof (indexOf_lower alphabet c).
    destruct (Z.eqb_spec (Js.indexOf alphabet c) (-1)); [discriminate|].
    assert (0 <= acc * radix + Js.indexOf alphabet c) by nia.
    pose proof (exact_decode_ge alphabet radix s _ z Hr H1 H).
    rewrite mul_of_Z, of_Q_exact, add_of_Z, of_Q_exact by nia.
    apply IH; assumption.
Qed.

(** Below [2^53], decoding what the loop of base 62 wrote gives the number
    back. *)
Lemma decode_encode_exact (fuel : nat) (n : Z) :
  0 <= n < 2 ^ Z.of_nat fuel -> n < 2 ^ 53 ->
  decode_loop chars62 62 (encode_loop fuel chars62 62 n "") (Js.of_Z 0)
  = Ret (Js.of_Z n).
Proof.
  intros Hn H53. assert (0 < 2 ^ 53) by reflexivity.
  rewrite encode_loop_exact by lia.
  apply decode_loop_exact; [lia | lia | lia |].
  now apply decode_digit_loop.
Qed.

(** From [2^53] on, decoding what the loop of base 62 wrote gives a number
    within 8 of [2^53] at least, or infinity. *)
Lemma decode_encode_past (fuel : nat) (n : Z) :
  2 ^ 53 <= n < 2 ^ Z.of_nat fuel ->
  exists x,
    decode_loop chars62 62 (encode_loop fuel chars62 62 n "") (Js.of_Z 0) = Ret x
    /\ at_least (2 ^ 53 - 8) x.
Proof.
  assert (P53 : 0 < 2 ^ 53) by reflexivity.
  assert (E0 : 2 ^ 53 / 62 = 145277407334532) by reflexivity.
  assert (E1 : 2 ^ 53 = 9007199254740992) by reflexivity.
  revert n. induction fuel as [|fuel IH]; intros n Hn.
  - simpl in Hn. lia.
  - rewrite encode_loop_last, decode_loop_append by lia.
    destruct (Math_floor_div_big n 62 ltac:(lia) ltac:(lia)) as [Hlo Hhi].
    pose proof (floor_div_bound n fuel ltac:(lia)) as Hq.
    set (q := Js.Math_floor_div n 62) in *.
    destruct (char_at_digit B62 (n mod 62)) as (c & Hc & Hi & _).
    { apply Z.mod_pos_bound. reflexivity. }
    change (chars_of B62) with chars62 in Hc, Hi.
    pose proof (Z.mod_pos_bound n 62 eq_refl) as Hm.
    assert (Hx : exists x,
      decode_loop chars62 62 (encode_loop fuel chars62 62 q "") (Js.of_Z 0) = Ret x
      /\ at_least (2 ^ 53 / 62) x).
    { destruct (Z.lt_ge_cases q (2 ^ 53)) as [Hs|Hb].
      - exists (Js.of_Z q). split; [apply decode_encode_exact; lia|].
        right. exists q. split; [reflexivity | lia].
      - destruct (IH q ltac:(lia)) as (x & Hx & Hpast).
        exists x. split; [assumption|].
        apply (at_least_weaken (2 ^ 53 - 8)); [lia | assumption]. }
    destruct Hx as (x & -> & Hx). rewrite Hc. cbn [decode_loop]. rewrite Hi.
    destruct (Z.eqb_spec (n mod 62) (-1)); [lia|].
    eexists. split; [reflexivity|]. apply decode_step_past; [assumption | lia].
Qed.

(** Decoding what the encoder wrote, for a generator whose characters are
    the alphabet of its base and a number below [2^53]. *)
Lemma roundtrip_of_alphabet (this : Uzid) (v : Z) :
  chars this = chars_of (base this) ->
  0 <= v < 2 ^ 53 ->
  fromBaseString this (toBaseString this v (base this)) (base this)
  = Ret (Js.of_Z v).
Proof.
  intros Hchars Hv.
  unfold fromBaseString, toBaseString. rewrite Hchars.
  destruct (base this); simpl chars_of; simpl base_value.
  - rewrite parseInt36_toString36, of_Q_exact by lia. reflexivity.
  - destruct (Z.eqb_spec v 0) as [->|Hnz]; [reflexivity|].
    apply decode_encode_exact; [|lia].
    split; [lia | apply loop_fuel_enough; lia].
Qed.

(** From [2^53] on, decoding what the encoder wrote gives a number beyond
    every date. *)
Lemma roundtrip_past (this : Uzid) (v : Z) :
  chars this = chars_of (base this) ->
  2 ^ 53 <= v ->
  exists x,
    fromBaseString this (toBaseString this v (base this)) (base this) = Ret x
    /\ at_least (2 ^ 53 - 8) x.
Proof.
  intros Hchars Hv. assert (P53 : 0 < 2 ^ 53) by reflexivity.
  unfold fromBaseString, toBaseString. rewrite Hchars.
  destruct (base this); simpl chars_of; simpl base_value.
  - rewrite parseInt36_toString36 by lia. eexists. split; [reflexivity|].
    apply (at_least_weaken (2 ^ 53)); [lia | now apply of_Q_past].
  - destruct (Z.eqb_spec v 0) as [?|Hnz]; [lia|].
    apply decode_encode_past.
    split; [lia | apply loop_fuel_enough; lia].
Qed.

(* ================================================================= *)
(** ** Slices *)

Section SliceFacts.

Variables a b : string.

(** [(a + b).slice(a.length)] is [b]. *)
Lemma slice_drop : Js.slice (a ++ b) (Z.of_nat (String.length a)) None = b.
Proof.
  unfold Js.slice. cbv beta zeta. rewrite length_append, Nat2Z.inj_add.
  destruct (Z.ltb_spec (Z.of_nat (String.length a)) 0) as [?|_]; [lia|].
  rewrite Z.min_l by lia.
  replace (_ + _ - _) with (Z.of_nat (String.length b)) by lia.
  rewrite !Nat2Z.id, substring_skip. apply substring_all.
Qed.

(** [(a + b).slice(-b.length)] is [b], for a [b] that is not empty. *)
Lemma slice_last :
  (0 < String.length b)%nat ->
  Js.slice (a ++ b) (- Z.of_nat (String.length b)) None = b.
Proof.
  intros Hb. unfold Js.slice. cbv beta zeta. rewrite length_append, Nat2Z.inj_add.
  destruct (Z.ltb_spec (- Z.of_nat (String.length b)) 0) as [_|?]; [|lia].
  rewrite Z.max_l by lia.
  replace (_ + _ + - _) with (Z.of_nat (String.length a)) by lia.
  replace (_ + _ - _) with (Z.of_nat (String.length b)) by lia.
  rewrite !Nat2Z.id, substring_skip. apply substring_all.
Qed.

(** [(a + b).slice(0, -b.length)] is [a], for a [b] that is not empty. *)
Lemma slice_init :
  (0 < String.length b)%nat ->
  Js.slice (a ++ b) 0 (Some (- Z.of_nat (String.length b))) = a.
Proof.
  intros Hb. unfold Js.slice. cbv beta zeta. rewrite length_append, Nat2Z.inj_add.
  destruct (Z.ltb_spec (- Z.of_nat (String.length b)) 0) as [_|?]; [|lia].
  change (0 <? 0) with false. cbv iota.
  rewrite Z.max_l, Z.min_l by lia.
  replace (_ + _ + - _ - 0) with (Z.of_nat (String.length a)) by lia.
  rewrite Nat2Z.id. apply substring_take.
Qed.

End SliceFacts.

(* ================================================================= *)
(** ** Building an identifier *)

Lemma alphabet_length (b : Base) :
  Z.of_nat (String.length (chars_of b)) = base_value b.
Proof. destruct b; reflexivity. Qed.

(** [Math.floor(Math.random() * n)] is an index below [n]. *)
Lemma floor_scaled_range (u : unit_interval) (n : Z) :
  0 < n <= 2 ^ 52 -> 0 <= floor_scaled u n < n.
Proof.
  intros Hn. unfold floor_scaled.
  pose proof (mant_range u) as Hr. apply andb_prop in Hr as [H0 H1].
  apply Z.leb_le in H0. apply Z.ltb_lt in H1.
  assert (P53 : 2 ^ 53 = 2 * 2 ^ 52) by reflexivity.
  assert (P52 : 0 < 2 ^ 52) by reflexivity.
  destruct (mant u * n) as [|p|p] eqn:Ea;
    [change (Qfloor (Js.round (0 # 9007199254740992))) with 0; lia | | nia].
  unfold Js.round. cbn [Qnum Qden]. unfold Js.round_pos.
  destruct (log2_ratio_spec (Zpos p) 9007199254740992 eq_refl) as [Hk Hk'].
  set (k := Js.log2_ratio (Zpos p) 9007199254740992) in *. clearbody k.
  change (Zpos 9007199254740992) with (2 ^ 53) in *.
  assert (Ha : Zpos p < n * 2 ^ 53) by nia.
  assert (Hklo : -53 <= k).
  { destruct (Z.le_gt_cases (-53) k); [assumption|].
    destruct (Hk' ltac:(lia)) as [_ H2].
    assert (2 ^ 54 <= 2 ^ (- k)) by (apply Z.pow_le_mono_r; lia).
    assert (2 * 2 ^ 53 = 2 ^ 54) by reflexivity. nia. }
  assert (Hkhi : k < 52).
  { destruct (Z.lt_ge_cases k 52); [assumption|].
    destruct (Hk ltac:(lia)) as [H2 _].
    assert (2 ^ 52 <= 2 ^ k) by (apply Z.pow_le_mono_r; lia). nia. }
  rewrite Z.max_l by lia.
  destruct (Z.leb_spec 0 (k - 52)) as [?|_]; [lia|].
  set (E := 2 ^ (- (k - 52))).
  assert (HE : 0 < E) by (apply pow2_pos; lia).
  assert (HnE : 2 ^ 52 < n * E).
  { destruct (Z.lt_ge_cases k 0) as [Hneg|Hpos].
    - assert (2 ^ 53 <= E) by (apply Z.pow_le_mono_r; lia). nia.
    - destruct (Hk Hpos) as [H2 _].
      assert (E * 2 ^ k = 2 ^ 52)
        by (unfold E; rewrite <- Z.pow_add_r by lia; f_equal; lia).
      pose proof (pow2_pos k Hpos). nia. }
  set (m := Js.nearest_even (Zpos p * E) (2 ^ 53)).
  assert (Hlo : 0 <= m) by (apply nearest_even_ge; lia).
  assert (Hhi : m < n * E) by (apply nearest_even_lt; nia).
  rewrite (Qfloor_comp _ _ (Qred_correct _)).
  unfold Qfloor. cbn [Qnum Qden]. rewrite Z2Pos.id by lia.
  split; [apply Z.div_pos; lia | apply Z.div_lt_upper_bound; lia].
Qed.

(** The random suffix: as many characters as asked for, all of the
    alphabet. *)
Lemma random_loop_spec (b : Base) (n : nat) (s : string) (w : World) :
  exists r,
    fst (random_loop n (chars_of b) s w) = s ++ r
    /\ String.length r = n
    /\ Js.all_chars (Js.includes (chars_of b)) r = true.
Proof.
  revert s w. induction n as [|n IH]; intros s w.
  - exists "". simpl. now rewrite append_nil_r.
  - cbn [random_loop]. unfold bind at 1. cbn [Math_random].
    rewrite alphabet_length.
    destruct (char_at_digit b (floor_scaled (entropy w (draws w)) (base_value b)))
      as (c & Hc & _ & Hin & _).
    { apply floor_scaled_range. destruct b; split; (reflexivity || discriminate). }
    rewrite Hc.
    match goal with |- context [random_loop n _ ?s' ?w'] =>
      destruct (IH s' w') as (r & Hr & Hlen & Hall) end.
    exists (String c r). rewrite Hr, append_assoc. simpl.
    now rewrite Hlen, Hin, Hall.
Qed.

(** The digits of a positive number: at least one, all of the alphabet. *)
Lemma digit_loop_chars (b : Base) (fuel : nat) (n : Z) :
  Js.all_chars (Js.includes (chars_of b))
    (Js.digit_loop fuel (chars_of b) (base_value b) n "") = true.
Proof.
  revert n. induction fuel as [|fuel IH]; intros n; [reflexivity|].
  destruct (Z.ltb_spec 0 n) as [Hn|Hn].
  - rewrite digit_loop_last, all_chars_append, IH
      by (assumption || now destruct b).
    destruct (char_at_digit b (n mod base_value b)) as (c & Hc & _ & Hin & _).
    { apply Z.mod_pos_bound. now destruct b. }
    rewrite Hc. simpl. now rewrite Hin.
  - now rewrite digit_loop_zero.
Qed.

Lemma digit_loop_nonempty (b : Base) (n : Z) :
  0 < n ->
  (0 < String.length
         (Js.digit_loop (Js.loop_fuel n) (chars_of b) (base_value b) n ""))%nat.
Proof.
  intros Hn. unfold Js.loop_fuel.
  rewrite digit_loop_last, length_append by (assumption || now destruct b).
  destruct (char_at_digit b (n mod base_value b)) as (c & Hc & _).
  { apply Z.mod_pos_bound. now destruct b. }
  rewrite Hc. simpl. lia.
Qed.

(** The loop of base 62 writes characters of the alphabet, and at least one
    for a positive number. *)
Lemma encode_loop_chars (fuel : nat) (n : Z) :
  Js.all_chars (Js.includes chars62) (encode_loop fuel chars62 62 n "") = true.
Proof.
  revert n. induction fuel as [|fuel IH]; intros n; [reflexivity|].
  destruct (Z.ltb_spec 0 n) as [Hn|Hn].
  - rewrite encode_loop_last, all_chars_append, IH by lia.
    destruct (char_at_digit B62 (n mod 62)) as (c & Hc & _ & Hin & _).
    { apply Z.mod_pos_bound. reflexivity. }
    change (chars_of B62) with chars62 in Hc, Hin.
    rewrite Hc. cbn [Js.all_chars andb]. now rewrite Hin.
  - now rewrite encode_loop_zero.
Qed.

Lemma encode_loop_nonempty (n : Z) :
  0 < n ->
  (0 < String.length (encode_loop (Js.loop_fuel n) chars62 62 n ""))%nat.
Proof.
  intros Hn. unfold Js.loop_fuel. rewrite encode_loop_last, length_append by lia.
  destruct (char_at_digit B62 (n mod 62)) as (c & Hc & _).
  { apply Z.mod_pos_bound. reflexivity. }
  change (chars_of B62) with chars62 in Hc. rewrite Hc. simpl. lia.
Qed.

(** The encoded timestamp of a generator: not empty, and made of the
    generator's characters. *)
Lemma stamp_spec (this : Uzid) (ts : Z) :
  chars this = chars_of (base this) -> 0 <= ts ->
  let stamp := toBaseString this ts (base this) in
  (0 < String.length stamp)%nat
  /\ Js.all_chars (Js.includes (chars this)) stamp = true.
Proof.
  intros Hchars Hts. cbv zeta. unfold toBaseString, Js.toString36.
  rewrite Hchars.
  destruct (Z.eqb_spec ts 0) as [->|Hnz].
  - destruct (base this); split; simpl; (lia || reflexivity).
  - destruct (base this) eqn:Hb.
    + destruct (Z.ltb_spec ts 0) as [?|_]; [lia|]. split.
      * apply (digit_loop_nonempty B36). lia.
      * apply (digit_loop_chars B36).
    + split.
      * apply encode_loop_nonempty. lia.
      * apply encode_loop_chars.
Qed.

(** [single] reads the clock once, and writes prefix, timestamp and suffix. *)
Lemma single_spec (this : Uzid) (w : World) :
  chars this = chars_of (base this) ->
  exists r,
    fst (single this w)
    = prefix this
      ++ toBaseString this (time w (reads w) / unit_of (precision this)) (base this)
      ++ r
    /\ String.length r = Z.to_nat (length this)
    /\ Js.all_chars (Js.includes (chars this)) r = true.
Proof.
  intros Hchars. unfold single, random, bind, Date_now, ret. rewrite Hchars.
  match goal with |- context [random_loop ?n _ ?s ?w'] =>
    destruct (random_loop_spec (base this) n s w') as (r & Hr & Hlen & Hall);
    destruct (random_loop n (chars_of (base this)) s w') as [r' w''] end.
  simpl in Hr. subst r'. exists r. simpl. auto.
Qed.

(** An integer is a date when it is within the range of time values. *)
Lemma date_of_integer (z : Z) :
  Js.isNaN (Js.Date_getTime (Js.of_Z z)) = negb (Z.abs z <=? Js.MAX_TIME).
Proof.
  unfold Js.of_Z, Js.Date_getTime, Qle_bool, Qabs, inject_Z. cbn [Qnum Qden].
  rewrite !Z.mul_1_r. now destruct (Z.abs z <=? Js.MAX_TIME).
Qed.

(** A number of at least [2^53 - 8] is not a date. *)
Lemma date_of_large (x : Js.number) :
  at_least (2 ^ 53 - 8) x -> Js.isNaN (Js.Date_getTime x) = true.
Proof.
  assert (E1 : 2 ^ 53 = 9007199254740992) by reflexivity.
  intros [->|(z & -> & Hz)]; [reflexivity|].
  rewrite date_of_integer. unfold Js.MAX_TIME.
  destruct (Z.leb_spec (Z.abs z) 8640000000000000); [lia | reflexivity].
Qed.

(** A product of two integers within the range of time values is a date. *)
Lemma date_of_product (a b : Z) :
  Z.abs (a * b) <= Js.MAX_TIME ->
  Js.isNaN (Js.Date_getTime (Js.mul (Js.of_Z a) (Js.of_Z b))) = false.
Proof.
  intros H. assert (E1 : 2 ^ 53 = 9007199254740992) by reflexivity.
  unfold Js.MAX_TIME in H.
  rewrite mul_of_Z, of_Q_exact_abs, date_of_integer by lia.
  unfold Js.MAX_TIME.
  destruct (Z.leb_spec (Z.abs (a * b)) 8640000000000000); [reflexivity | lia].
Qed.

Lemma unit_of_cases (p : option string) : unit_of p = 1 \/ unit_of p = 1000.
Proof. unfold unit_of. destruct p as [s|]; [destruct (String.eqb s "ms")|]; auto. Qed.

(* ================================================================= *)
(** ** Verifying an identifier *)

(** [verify] on the generator's prefix, followed by some text and by a
    suffix of the configured length made of the generator's characters:
    the text is taken as the timestamp part. *)
Lemma verify_parts (this : Uzid) (stamp r : string) :
  0 <= length this ->
  String.length r = Z.to_nat (length this) ->
  Js.all_chars (Js.includes (chars this)) r = true ->
  verify this (prefix this ++ stamp ++ r)
  = negb (String.length (stamp ++ r) =? 0)%nat
    && Js.all_chars (Js.includes (chars this)) stamp
    && decodes_to_date this stamp.
Proof.
  intros HL Hlen Hall. unfold verify, decodes_to_date.
  unfold Js.startsWith. rewrite prefix_append, slice_drop.
  rewrite (length_append (prefix this)).
  destruct (Nat.eqb_spec (String.length (stamp ++ r)) 0) as [E|N].
  { destruct (_ || _); reflexivity. }
  destruct (Nat.eqb_spec (String.length (prefix this) + String.length (stamp ++ r)) 0)
    as [?|_]; [lia|].
  cbn [orb negb andb]. rewrite all_chars_append, Hall, andb_true_r.
  destruct (Js.all_chars (Js.includes (chars this)) stamp); [|reflexivity].
  cbn [negb andb].
  assert (Hparts :
    (if length this =? 0 then "" else Js.slice (stamp ++ r) (- length this) None) = r
    /\ (if length this =? 0 then stamp ++ r
        else Js.slice (stamp ++ r) 0 (Some (- length this))) = stamp).
  { destruct (Z.eqb_spec (length this) 0) as [E|N0].
    - rewrite E in Hlen. destruct r; [|discriminate].
      now rewrite append_nil_r.
    - replace (length this) with (Z.of_nat (String.length r)) by lia.
      split; [apply slice_last | apply slice_init]; lia. }
  destruct Hparts as [-> ->].
  replace (Z.of_nat (String.length r)) with (length this) by lia.
  rewrite Z.eqb_refl. reflexivity.
Qed.

(** [verify] on an identifier laid out as a generator lays it out: its own
    prefix, the encoding of a timestamp that is a date, and a suffix of the
    configured length. *)
Lemma verify_layout (options : UzidOptions) (this : Uzid) (ts : Z) (r : string) :
  constructor options = Ret this ->
  0 <= ts -> ts * unit_of (precision this) <= Js.MAX_TIME ->
  String.length r = Z.to_nat (length this) ->
  Js.all_chars (Js.includes (chars this)) r = true ->
  verify this (prefix this ++ toBaseString this ts (base this) ++ r) = true.
Proof.
  intros Hc Hts Hmax Hlen Hall.
  apply constructor_ok in Hc as [Hchars HL].
  assert (Hlt : ts < 2 ^ 53).
  { change (2 ^ 53) with 9007199254740992. unfold Js.MAX_TIME in Hmax.
    destruct (unit_of_cases (precision this)) as [E|E]; rewrite E in *; lia. }
  pose proof (roundtrip_of_alphabet this ts Hchars (conj Hts Hlt)) as Hrt.
  destruct (stamp_spec this ts Hchars Hts) as [Hne Hstamp].
  rewrite verify_parts by (assumption || lia).
  unfold decodes_to_date. rewrite Hrt, Hstamp, length_append.
  destruct (Nat.eqb_spec (String.length (toBaseString this ts (base this))
                          + String.length r) 0) as [?|_]; [lia|].
  rewrite date_of_product; [reflexivity|].
  destruct (unit_of_cases (precision this)) as [E|E]; rewrite E in *; lia.
Qed.

(** What [single] returns starts with the prefix, whatever the generator. *)
Lemma single_prefix (this : Uzid) (w : World) :
  exists rest, fst (single this w) = prefix this ++ rest.
Proof.
  unfold single, bind, Date_now, ret.
  destruct (random this _) as [r w']. simpl. eauto.
Qed.

(** A string that starts a concatenation starts its first part, or is
    started by it. *)
Lemma prefix_of_append (p q rest : string) :
  String.prefix p (q ++ rest) = true ->
  String.prefix p q = true \/ String.prefix q p = true.
Proof.
  revert p. induction q as [|c q IH]; intros p H.
  - right. now destruct p.
  - destruct p as [|d p]; [now left|].
    simpl in *. destruct (ascii_dec d c) as [->|N]; [|discriminate].
    destruct (ascii_dec c c) as [_|N]; [|now elim N]. now apply IH.
Qed.

(* ================================================================= *)
(** ** Batches *)

Lemma ltb_of_Z (a b : Z) : Js.ltb (Js.of_Z a) (Js.of_Z b) = (a <? b).
Proof.
  unfold Js.ltb, Js.of_Z, Qle_bool. simpl. rewrite !Z.mul_1_r.
  now rewrite Z.ltb_antisym.
Qed.

Lemma Set_has_In (ids : StringSet) (id : string) :
  Set_has ids id = true <-> In id ids.
Proof.
  unfold Set_has. rewrite existsb_exists. split.
  - intros (x & Hin & E). apply String.eqb_eq in E. now subst.
  - intros Hin. exists id. split; [assumption | apply String.eqb_refl].
Qed.

Lemma Set_add_In (ids : StringSet) (id x : string) :
  In x (Set_add ids id) <-> In x ids \/ x = id.
Proof.
  unfold Set_add. destruct (Set_has ids id) eqn:E.
  - apply Set_has_In in E. split; [auto | intros [H| ->]; assumption].
  - rewrite in_app_iff. simpl. intuition.
Qed.

Lemma Set_add_NoDup (ids : StringSet) (id : string) :
  NoDup ids -> NoDup (Set_add ids id).
Proof.
  intros H. unfold Set_add. destruct (Set_has ids id) eqn:E; [assumption|].
  apply NoDup_app; [assumption | repeat constructor; intros [] |].
  intros x Hx [<-|[]]. apply Set_has_In in Hx. congruence.
Qed.

Lemma Set_add_length (ids : StringSet) (id : string) :
  (List.length ids <= List.length (Set_add ids id) <= S (List.length ids))%nat.
Proof.
  unfold Set_add. destruct (Set_has ids id); [lia|].
  rewrite length_app. simpl. lia.
Qed.

Section Batch.

Variable this : Uzid.
Variable n : nat.

Let count : Js.number := Js.of_Z (Z.of_nat n).

Lemma sorted_ascending (l : list string) :
  Sorted (fun a b => is_true (String.leb a b)) l -> ascending l.
Proof.
  intros Hs. induction Hs as [|x l Hs IH Hhd]; intros i a b Ha Hb.
  - now destruct i.
  - destruct i as [|i].
    + simpl in Ha, Hb. injection Ha as <-. destruct l as [|y l]; [discriminate|].
      simpl in Hb. injection Hb as <-. now inversion Hhd.
    + exact (IH i a b Ha Hb).
Qed.

(** The loop ends only with [n] distinct identifiers, sorted. *)
Lemma multiple_loop_result (fuel : nat) (ids : StringSet) (w : World)
  (l : list string) (w' : World) :
  NoDup ids -> (List.length ids <= n)%nat ->
  multiple_loop fuel this count ids w = (Ret l, w') ->
  List.length l = n /\ NoDup l /\ ascending l.
Proof.
  revert ids w. induction fuel as [|fuel IH]; intros ids w Hnd Hle;
    cbn [multiple_loop]; unfold count, Set_size; rewrite ltb_of_Z;
    destruct (Z.ltb_spec (Z.of_nat (List.length ids)) (Z.of_nat n)) as [Hlt|Hge];
    try discriminate.
  1, 3: intros [= <- _];
    pose proof (StringSort.Permuted_sort ids) as Hp;
    repeat split;
    [ rewrite <- (Permutation_length Hp); lia
    | exact (Permutation_NoDup Hp Hnd)
    | apply sorted_ascending, Sorted_LocallySorted_iff,
        StringSort.LocallySorted_sort ].
  destruct (single this w) as [id w1]. apply IH.
  - now apply Set_add_NoDup.
  - pose proof (Set_add_length ids id). lia.
Qed.

(** The loop ends as soon as the identifiers drawn fill the set. *)
Lemma multiple_loop_ends (k : nat) (ids : StringSet) (w : World) :
  (n <= List.length (fold_left Set_add (draw_ids k this w) ids))%nat ->
  exists l w', multiple_loop k this count ids w = (Ret l, w').
Proof.
  revert ids w. induction k as [|k IH]; intros ids w Hk;
    cbn [multiple_loop]; unfold count, Set_size; rewrite ltb_of_Z;
    destruct (Z.ltb_spec (Z.of_nat (List.length ids)) (Z.of_nat n)) as [Hlt|Hge];
    eauto.
  - simpl in Hk. lia.
  - cbn [draw_ids] in Hk. destruct (single this w) as [id w1].
    apply IH. exact Hk.
Qed.

End Batch.

Lemma fold_Set_add_In (l : list string) (ids : StringSet) (x : string) :
  In x (fold_left Set_add l ids) <-> In x ids \/ In x l.
Proof.
  revert ids. induction l as [|y l IH]; intros ids; simpl.
  - tauto.
  - rewrite IH, Set_add_In. intuition.
Qed.

(** The set holds as many members as there are distinct identifiers. *)
Lemma distinct_le_fold (l : list string) :
  (List.length (nodup string_dec l) <= List.length (fold_left Set_add l []))%nat.
Proof.
  apply NoDup_incl_length; [apply NoDup_nodup|].
  intros x Hx. apply nodup_In in Hx. apply fold_Set_add_In. now right.
Qed.

(** [generate(count)] returns the batch of [multiple(count)]. *)
Lemma generate_batch (fuel : nat) (this : Uzid) (count : Js.number) (w : World)
  (l : list string) (w' : World) :
  generate fuel this (Some count) w = (Ret (inr l), w')
  <-> multiple fuel this count w = (Ret l, w').
Proof.
  unfold generate.
  destruct (multiple fuel this count w) as [[l0|e|] w0]; split;
    intros H; inversion H; reflexivity.
Qed.

(** The loop of [multiple] throws nothing. *)
Lemma multiple_loop_no_throw (fuel : nat) (this : Uzid) (count : Js.number)
  (ids : StringSet) (w : World) (e : error) :
  fst (multiple_loop fuel this count ids w) <> Throw e.
Proof.
  revert ids w. induction fuel as [|fuel IH]; intros ids w; cbn [multiple_loop];
    destruct (Js.ltb (Set_size ids) count); try discriminate.
  destruct (single this w) as [id w1]. apply IH.
Qed.

(* ================================================================= *)
(** ** Order of the encoded timestamps *)

Lemma digits36_ordered (d1 d2 : Z) :
  0 <= d1 < d2 -> d2 < 36 ->
  exists c1 c2,
    Js.char_at chars36 d1 = String c1 ""
    /\ Js.char_at chars36 d2 = String c2 ""
    /\ Ascii.compare c1 c2 = Lt.
Proof.
  intros H1 H2.
  assert (Hall : forallb (fun a => forallb (digit_order_ok a) (seq 0 36)) (seq 0 36)
                 = true) by (vm_compute; reflexivity).
  rewrite forallb_forall in Hall.
  specialize (Hall (Z.to_nat d1) ltac:(apply in_seq; lia)).
  rewrite forallb_forall in Hall.
  specialize (Hall (Z.to_nat d2) ltac:(apply in_seq; lia)).
  unfold digit_order_ok in Hall. unfold Js.char_at.
  destruct (Z.ltb_spec d1 0); [lia|]. destruct (Z.ltb_spec d2 0); [lia|].
  destruct (String.get (Z.to_nat d1) chars36) as [c1|]; [|discriminate].
  destruct (String.get (Z.to_nat d2) chars36) as [c2|]; [|discriminate].
  exists c1, c2. repeat split.
  destruct (Nat.ltb_spec (Z.to_nat d1) (Z.to_nat d2)); [|lia].
  now destruct (Ascii.compare c1 c2).
Qed.

Lemma compare_append_same (p a b : string) :
  String.compare (p ++ a) (p ++ b) = String.compare a b.
Proof.
  induction p as [|c p IH]; simpl; [reflexivity|].
  unfold Ascii.compare. now rewrite N.compare_refl.
Qed.

Lemma digit_loop_length_pos (alphabet : string) (radix : Z) (fuel : nat) (n : Z) :
  0 < n ->
  (0 < String.length (Js.digit_loop (S fuel) alphabet radix n ""))%nat.
Proof.
  intros Hn. cbn [Js.digit_loop]. destruct (Z.ltb_spec 0 n) as [_|?]; [|lia].
  rewrite digit_loop_out, length_append, length_append.
  unfold Js.char_at.
  destruct (_ <? 0); [simpl; lia|].
  destruct (String.get _ alphabet); simpl; lia.
Qed.

(** Of two numbers written with as many digits, the smaller one comes first
    in code unit order, whatever follows the digits. *)
Lemma digit_loop_ordered (fuel : nat) (n1 n2 : Z) (r1 r2 : string) :
  0 <= n1 < n2 -> n2 < 2 ^ Z.of_nat fuel ->
  String.length (Js.digit_loop fuel chars36 36 n1 "")
  = String.length (Js.digit_loop fuel chars36 36 n2 "") ->
  String.compare (Js.digit_loop fuel chars36 36 n1 "" ++ r1)
                 (Js.digit_loop fuel chars36 36 n2 "" ++ r2) = Lt.
Proof.
  revert n1 n2 r1 r2. induction fuel as [|fuel IH]; intros n1 n2 r1 r2 Hn Hb Hlen.
  - simpl in Hb. lia.
  - destruct (Z.eq_dec n1 0) as [->|Hnz].
    { pose proof (digit_loop_length_pos chars36 36 fuel n2 ltac:(lia)).
      rewrite digit_loop_zero in Hlen by lia. cbn [String.length] in Hlen. lia. }
    rewrite !digit_loop_last, !length_append in * by lia.
    pose proof (Z.div_mod n1 36 ltac:(lia)) as E1.
    pose proof (Z.div_mod n2 36 ltac:(lia)) as E2.
    pose proof (Z.mod_pos_bound n1 36 eq_refl) as M1.
    pose proof (Z.mod_pos_bound n2 36 eq_refl) as M2.
    rewrite !append_assoc.
    destruct (Z.eq_dec (n1 / 36) (n2 / 36)) as [Eq|Ne].
    + rewrite Eq, compare_append_same.
      destruct (digits36_ordered (n1 mod 36) (n2 mod 36)) as (c1 & c2 & -> & -> & Hc);
        [lia | lia |].
      simpl. now rewrite Hc.
    + apply IH.
      * assert (n1 / 36 <= n2 / 36) by (apply Z.div_le_mono; lia).
        split; [apply Z.div_pos; lia | lia].
      * apply quotient_bound; lia.
      * destruct (char_at_digit B36 (n1 mod 36) M1) as (c1 & Hc1 & _).
        destruct (char_at_digit B36 (n2 mod 36) M2) as (c2 & Hc2 & _).
        change (chars_of B36) with chars36 in Hc1, Hc2.
        rewrite Hc1, Hc2 in Hlen. simpl in Hlen. lia.
Qed.

(** [toString(36)] of a positive number, with any fuel that is enough. *)
Lemma toString36_fuel (fuel : nat) (n : Z) :
  0 < n < 2 ^ Z.of_nat fuel ->
  Js.toString36 n = Js.digit_loop fuel chars36 36 n "".
Proof.
  intros Hn. unfold Js.toString36.
  destruct (Z.eqb_spec n 0); [lia|]. destruct (Z.ltb_spec n 0); [lia|].
  change Js.digits36 with chars36.
  pose proof (loop_fuel_enough n ltac:(lia)) as Hf.
  destruct (Nat.le_ge_cases fuel (Js.loop_fuel n)) as [Hle|Hle].
  - replace (Js.loop_fuel n) with (fuel + (Js.loop_fuel n - fuel))%nat by lia.
    apply digit_loop_fuel; lia.
  - replace fuel with (Js.loop_fuel n + (fuel - Js.loop_fuel n))%nat at 1 by lia.
    symmetry. apply digit_loop_fuel; lia.
Qed.

(** Sortability over time holds for base 36: of two identifiers of one
    generator whose timestamps are written with as many digits, the one with
    the smaller timestamp comes first, whatever the random suffixes. *)
Lemma base36_ids_in_order (this : Uzid) (t1 t2 : Z) (r1 r2 : string) :
  0 <= t1 < t2 ->
  String.length (toBaseString this t1 B36) = String.length (toBaseString this t2 B36) ->
  String.ltb (prefix this ++ toBaseString this t1 B36 ++ r1)
             (prefix this ++ toBaseString this t2 B36 ++ r2) = true.
Proof.
  intros Ht Hlen. unfold String.ltb. rewrite compare_append_same.
  cbn [toBaseString] in *.
  pose proof (loop_fuel_enough t2 ltac:(lia)) as Hf.
  set (fuel := Js.loop_fuel t2) in *.
  rewrite (toString36_fuel fuel t2) in * by lia.
  destruct (Z.eq_dec t1 0) as [->|Hnz].
  - (* the epoch itself is written [0]; the other timestamp has one digit *)
    change (Js.toString36 0) with "0" in *.
    destruct fuel as [|fuel]; [simpl in Hf; lia|].
    rewrite digit_loop_last in * by lia.
    rewrite length_append in Hlen.
    assert (Hq : t2 / 36 = 0).
    { destruct (Z.eq_dec (t2 / 36) 0) as [|Hq]; [assumption|].
      pose proof (quotient_bound 36 t2 fuel ltac:(lia) ltac:(lia)) as Hb.
      destruct fuel as [|fuel]; [simpl in Hb; lia|].
      pose proof (digit_loop_length_pos chars36 36 fuel (t2 / 36) ltac:(lia)).
      destruct (char_at_digit B36 (t2 mod 36)) as (c & Hc & _);
        [apply Z.mod_pos_bound; reflexivity|].
      change (chars_of B36) with chars36 in Hc. rewrite Hc in Hlen.
      cbn [String.length] in Hlen. lia. }
    rewrite Hq, digit_loop_zero by lia.
    pose proof (Z.div_mod t2 36 ltac:(lia)) as E.
    pose proof (Z.mod_pos_bound t2 36 eq_refl) as M.
    destruct (digits36_ordered 0 (t2 mod 36)) as (c1 & c2 & H1 & -> & Hc);
      [lia | lia |].
    injection H1 as <-. simpl. now rewrite Hc.
  - rewrite (toString36_fuel fuel t1) in * by lia.
    now rewrite digit_loop_ordered by (assumption || lia).
Qed.

(* ================================================================= *)
(** ** Sample generators *)

(** The sample generators are what the constructor builds. *)
Lemma sample_constructions :
  constructor no_options = Ret default_uzid
  /\ constructor options62 = Ret uzid62
  /\ constructor options_ab = Ret uzid_ab
  /\ constructor options_a = Ret uzid_a.
Proof. repeat split. Qed.

(* ================================================================= *)
(** ** The properties of the specification *)

(** C1 (as stated, refuted).  The round trip fails for an integer that
    doubles represent exactly but whose base-62 digits are computed with
    rounded quotients: [2^70 + 2^20] is written [mGDE9b8mHI62], which
    decodes to another number. *)
Lemma roundtrip_fails_past_2_53 :
  let v := 2 ^ 70 + 2 ^ 20 in
  Js.of_Q (inject_Z v) = Js.of_Z v
  /\ toBaseString uzid62 v B62 = "mGDE9b8mHI62"
  /\ fromBaseString uzid62 (toBaseString uzid62 v B62) B62
     = Ret (Js.of_Z 1180591620717412614144)
  /\ fromBaseString uzid62 (toBaseString uzid62 v B62) B62 <> Ret (Js.of_Z v).
Proof. vm_compute. repeat split. discriminate. Qed.

(** C1 (amended).  Round trip of the radix conversion: for a generator of
    either base and every integer [0 <= v < 2^53], decoding the encoding of
    [v] in the generator's base gives [v] back. *)
Theorem decode_encode_roundtrip (options : UzidOptions) (this : Uzid) (v : Z) :
  constructor options = Ret this ->
  0 <= v < 2 ^ 53 ->
  fromBaseString this (toBaseString this v (base this)) (base this)
  = Ret (Js.of_Z v).
Proof.
  intros Hc Hv. apply constructor_ok in Hc as [Hchars _].
  now apply roundtrip_of_alphabet.
Qed.

Lemma decode_encode_roundtrip_witness :
  fromBaseString uzid62 (toBaseString uzid62 1700000000000 (base uzid62))
    (base uzid62)
  = Ret (Js.of_Z 1700000000000).
Proof.
  apply (decode_encode_roundtrip options62 uzid62 1700000000000);
    [reflexivity | split; [lia | reflexivity]].
Defined.

(** C2 (as stated, refuted).  A clock that shows a time before the epoch
    makes the default generator return an identifier that its own [verify]
    rejects: the timestamp [-2] is written with a minus sign, which is not
    in the alphabet. *)
Lemma pre_epoch_id_rejected :
  let id := fst (single default_uzid (world_at (-1500))) in
  fst (generate 0 default_uzid None (world_at (-1500))) = Ret (inl id)
  /\ id = "-20246"
  /\ verify default_uzid id = false.
Proof. vm_compute. repeat split. Qed.

(** C2 (amended).  Self-verification: for a generator built by the
    constructor and a clock that shows a time value at or after the epoch,
    the identifier that [generate()] returns is the one [single()] builds,
    and [verify] accepts it, whatever the random suffix. *)
Theorem generated_id_verifies (options : UzidOptions) (this : Uzid)
  (fuel : nat) (w : World) :
  constructor options = Ret this ->
  0 <= time w (reads w) <= Js.MAX_TIME ->
  exists id,
    fst (generate fuel this None w) = Ret (inl id)
    /\ id = fst (single this w)
    /\ verify this id = true.
Proof.
  intros Hc Hnow. exists (fst (single this w)). split; [|split; [reflexivity|]].
  - unfold generate. now destruct (single this w).
  - pose proof (constructor_ok _ _ Hc) as [Hchars HL].
    destruct (single_spec this w Hchars) as (r & -> & Hlen & Hall).
    assert (Hu : 0 < unit_of (precision this))
      by (destruct (unit_of_cases (precision this)) as [E|E]; rewrite E; lia).
    apply (verify_layout options); try assumption.
    + apply Z.div_pos; lia.
    + pose proof (Z.mul_div_le (time w (reads w)) _ Hu). lia.
Qed.

Lemma generated_id_verifies_witness :
  exists id,
    fst (generate 0 uzid62 None sample_world) = Ret (inl id)
    /\ id = fst (single uzid62 sample_world)
    /\ verify uzid62 id = true.
Proof.
  apply (generated_id_verifies options62 uzid62 0 sample_world);
    [reflexivity | vm_compute; split; discriminate].
Defined.

(** C3.  Batches: for every integer [n >= 2], whenever [multiple(n)] returns
    it returns exactly [n] strings, pairwise distinct and in ascending order
    (each at most its successor); it does return once the identifiers drawn
    so far hold [n] distinct ones; and [generate(n)] returns what
    [multiple(n)] returns. *)
Theorem batch_distinct_sorted (this : Uzid) (n : Z) (w : World) :
  2 <= n ->
  (forall fuel l w',
      multiple fuel this (Js.of_Z n) w = (Ret l, w') ->
      Z.of_nat (List.length l) = n /\ NoDup l /\ ascending l)
  /\ (forall k,
         (Z.to_nat n <= List.length (nodup string_dec (draw_ids k this w)))%nat ->
         exists l w', multiple k this (Js.of_Z n) w = (Ret l, w'))
  /\ (forall fuel l w',
         generate fuel this (Some (Js.of_Z n)) w = (Ret (inr l), w')
         <-> multiple fuel this (Js.of_Z n) w = (Ret l, w')).
Proof.
  intros Hn. apply and_assoc. split; [|intros; apply generate_batch].
  assert (Hcount : negb (Js.isInteger (Js.of_Z n)) || Js.ltb (Js.of_Z n) (Js.of_Z 2)
                   = false).
  { rewrite ltb_of_Z. simpl. rewrite Z.mod_1_r. simpl.
    destruct (Z.ltb_spec n 2); [lia | reflexivity]. }
  unfold multiple. rewrite Hcount.
  rewrite <- (Z2Nat.id n) by lia. split.
  - intros fuel l w' H.
    apply multiple_loop_result in H; [|constructor | simpl; lia].
    rewrite Z2Nat.id by lia. destruct H as (H1 & H2 & H3).
    repeat split; [lia | assumption | assumption].
  - intros k Hk. apply multiple_loop_ends.
    rewrite Nat2Z.id in Hk.
    pose proof (distinct_le_fold (draw_ids k this w)). lia.
Qed.

Lemma batch_distinct_sorted_witness :
  exists l w',
    multiple 3 uzid62 (Js.of_Z 3) sample_world = (Ret l, w')
    /\ Z.of_nat (List.length l) = 3 /\ NoDup l /\ ascending l.
Proof.
  destruct (batch_distinct_sorted uzid62 3 sample_world ltac:(lia))
    as (Hres & Hend & _).
  destruct (Hend 3%nat ltac:(vm_compute; lia)) as (l & w' & H).
  exists l, w'. split; [exact H | exact (Hres _ _ _ H)].
Defined.

(** C4.  Sortability over time fails for base 62: with MILLISECONDS
    precision, the identifiers of two successive milliseconds whose
    encodings have the same length are in the wrong order, because the
    alphabet puts [z] before [A] and the code unit order puts [A] before
    [z]. *)
Theorem base62_ids_out_of_order :
  let t1 := 1699999999991 in
  let t2 := 1699999999992 in
  let id1 := fst (single uzid62 (world_at t1)) in
  let id2 := fst (single uzid62 (world_at t2)) in
  t1 < t2
  /\ toBaseString uzid62 t1 B62 = "tVCOKGz"
  /\ toBaseString uzid62 t2 B62 = "tVCOKGA"
  /\ id1 = "srvtVCOKGz037bfj"
  /\ id2 = "srvtVCOKGA037bfj"
  /\ String.ltb id1 id2 = false
  /\ String.ltb id2 id1 = true.
Proof. vm_compute. repeat split. Qed.

(** C5 (as stated, refuted).  An explicitly supplied precision of seconds,
    ["s"], is rejected with [InvalidPrecision]. *)
Lemma explicit_seconds_rejected :
  constructor (mkOptions None None None (Some "s")) = Throw InvalidPrecision
  /\ ~ (exists this, constructor (mkOptions None None None (Some "s")) = Ret this).
Proof. split; [reflexivity | intros [this H]; discriminate H]. Qed.

(** C5 (amended).  The constructor fails with [InvalidPrecision] exactly for
    an explicit precision that is neither ["ms"] nor the empty string;
    ["ms"], the empty string and a precision left out pass the check. *)
Theorem invalid_precision_iff (options : UzidOptions) :
  constructor options = Throw InvalidPrecision
  <-> exists p, opt_precision options = Some p /\ p <> "" /\ p <> "ms".
Proof.
  unfold constructor. split.
  - destruct (bad_precision (opt_precision options)) eqn:Hbad.
    + intros _. destruct (opt_precision options) as [[|c p]|]; try discriminate.
      exists (String c p). repeat split; [discriminate|].
      cbn [bad_precision] in Hbad.
      apply negb_true_iff, String.eqb_neq in Hbad. exact Hbad.
    + destruct (negb _ && negb _); [discriminate|].
      destruct (negb (Js.isInteger _) || _ || _); discriminate.
  - intros (p & -> & Hne & Hms). destruct p as [|c p]; [now elim Hne|].
    apply String.eqb_neq in Hms. cbn [bad_precision]. now rewrite Hms.
Qed.

(** C6 (as stated, refuted).  A base of [0] does not fail: it is replaced by
    the default and the generator of base 36 is built. *)
Lemma base_zero_accepted :
  constructor (mkOptions None (Some (Js.of_Z 0)) None None) = Ret default_uzid.
Proof. reflexivity. Qed.

(** C6 (amended).  The constructor fails with [InvalidBase] exactly when the
    precision passes its check and the base is supplied, truthy (neither [0]
    nor [NaN]) and different from 36 and from 62. *)
Theorem invalid_base_iff (options : UzidOptions) :
  constructor options = Throw InvalidBase
  <-> bad_precision (opt_precision options) = false
      /\ exists b, opt_base options = Some b
                   /\ Js.truthy b = true
                   /\ Js.eqb b (Js.of_Z 36) = false
                   /\ Js.eqb b (Js.of_Z 62) = false.
Proof.
  unfold constructor.
  destruct (bad_precision (opt_precision options)).
  { split; [discriminate | intros [H _]; discriminate H]. }
  unfold number_or. destruct (opt_base options) as [b|].
  - destruct (Js.truthy b) eqn:Ht.
    + destruct (Js.eqb b (Js.of_Z 36)) eqn:E36; cbn [negb andb].
      * split; [|intros (_ & b' & [= <-] & _ & H & _); congruence].
        destruct (negb (Js.isInteger _) || _ || _); discriminate.
      * destruct (Js.eqb b (Js.of_Z 62)) eqn:E62; cbn [negb].
        -- split; [|intros (_ & b' & [= <-] & _ & _ & H); congruence].
           destruct (negb (Js.isInteger _) || _ || _); discriminate.
        -- split; [intros _ | reflexivity].
           split; [reflexivity|]. exists b. auto.
    + split; [|intros (_ & b' & [= <-] & H & _); congruence].
      change (negb (Js.eqb (Js.of_Z 36) (Js.of_Z 36))) with false. cbn [andb].
      destruct (negb (Js.isInteger _) || _ || _); discriminate.
  - split; [|intros (_ & b' & H & _); discriminate H].
    change (negb (Js.eqb (Js.of_Z 36) (Js.of_Z 36))) with false. cbn [andb].
    destruct (negb (Js.isInteger _) || _ || _); discriminate.
Qed.

(** C7 (as stated, refuted).  The prefixes ["ab"] and ["a"] differ and
    neither is empty, yet the generator of prefix ["a"] accepts an identifier
    of the generator of prefix ["ab"]. *)
Lemma cross_prefix_accepted :
  prefix uzid_ab <> prefix uzid_a
  /\ prefix uzid_ab <> "" /\ prefix uzid_a <> ""
  /\ fst (single uzid_ab sample_world) = "abs44we80246"
  /\ verify uzid_a (fst (single uzid_ab sample_world)) = true.
Proof. repeat split; try discriminate. Qed.

(** C7 (amended).  Cross-prefix rejection: when neither prefix starts the
    other, a generator rejects every identifier of the other generator,
    whatever the clock and the random suffix. *)
Theorem cross_prefix_rejected (g1 g2 : Uzid) (w : World) :
  String.prefix (prefix g1) (prefix g2) = false ->
  String.prefix (prefix g2) (prefix g1) = false ->
  verify g2 (fst (single g1 w)) = false.
Proof.
  intros H12 H21. destruct (single_prefix g1 w) as [rest ->].
  unfold verify, Js.startsWith.
  destruct (String.prefix (prefix g2) (prefix g1 ++ rest)) eqn:E.
  - apply prefix_of_append in E as [E|E]; congruence.
  - now rewrite orb_true_r.
Qed.

Lemma cross_prefix_rejected_witness :
  verify uzid_wrong (fst (single uzid_test sample_world)) = false.
Proof.
  apply (cross_prefix_rejected uzid_test uzid_wrong sample_world); reflexivity.
Defined.

(** C8.  [multiple(count)] and [generate(count)] throw [InvalidCount] exactly
    when [count] is not an integer or is below 2; they throw nothing else,
    and a call that throws reads neither the clock nor the random source and
    returns no identifier. *)
Theorem invalid_count_iff (fuel : nat) (this : Uzid) (count : Js.number)
  (w : World) :
  let rejected := Js.isInteger count = false \/ Js.ltb count (Js.of_Z 2) = true in
  (fst (multiple fuel this count w) = Throw InvalidCount <-> rejected)
  /\ (fst (generate fuel this (Some count) w) = Throw InvalidCount <-> rejected)
  /\ (forall e, fst (multiple fuel this count w) = Throw e ->
                multiple fuel this count w = (Throw InvalidCount, w))
  /\ (forall e, fst (generate fuel this (Some count) w) = Throw e ->
                generate fuel this (Some count) w = (Throw InvalidCount, w)).
Proof.
  cbv zeta. unfold generate, multiple.
  destruct (negb (Js.isInteger count) || Js.ltb count (Js.of_Z 2)) eqn:Hc.
  - assert (Hr : Js.isInteger count = false \/ Js.ltb count (Js.of_Z 2) = true).
    { apply orb_prop in Hc as [H|H]; [left; now apply negb_true_iff | now right]. }
    simpl. repeat split; auto.
  - assert (Hr : ~ (Js.isInteger count = false \/ Js.ltb count (Js.of_Z 2) = true)).
    { apply orb_false_elim in Hc as [H1 H2]. apply negb_false_iff in H1.
      intros [H|H]; congruence. }
    pose proof (multiple_loop_no_throw fuel this count [] w) as Hno.
    destruct (multiple_loop fuel this count [] w) as [[l|e|] w']; simpl in *;
      repeat split; try tauto; try discriminate;
      intros; exfalso; eapply Hno; reflexivity.
Qed.

(** C9.  With base 36 the number 12345 is written [9ix]. *)
Theorem encode_12345_base36 (this : Uzid) :
  toBaseString this 12345 B36 = "9ix".
Proof. reflexivity. Qed.

(** C10.  An identifier without timestamp: for a generator with a suffix
    length of at least 1, on the prefix followed by exactly that many
    characters of the alphabet, [verify] answers true with base 62 (the empty
    timestamp decodes to 0) and false with base 36 ([parseInt] of the empty
    string is [NaN]). *)
Theorem verify_empty_timestamp (this : Uzid) (suffix : string) :
  1 <= length this ->
  Z.of_nat (String.length suffix) = length this ->
  Js.all_chars (Js.includes (chars this)) suffix = true ->
  verify this (prefix this ++ suffix)
  = match base this with B62 => true | B36 => false end.
Proof.
  intros HL Hlen Hall.
  change suffix with ("" ++ suffix) at 1.
  rewrite verify_parts by (assumption || lia).
  change ("" ++ suffix) with suffix.
  destruct (Nat.eqb_spec (String.length suffix) 0) as [?|_]; [lia|].
  unfold decodes_to_date, fromBaseString. destruct (base this).
  - reflexivity.
  - cbn [decode_loop negb andb Js.all_chars].
    now rewrite date_of_product by (rewrite Z.mul_0_l; discriminate).
Qed.

Lemma verify_empty_timestamp_witness :
  verify uzid62 (prefix uzid62 ++ "aZ09bY") = true
  /\ verify default_uzid (prefix default_uzid ++ "az09") = false.
Proof.
  split.
  - apply (verify_empty_timestamp uzid62 "aZ09bY");
      [discriminate | reflexivity | reflexivity].
  - apply (verify_empty_timestamp default_uzid "az09");
      [discriminate | reflexivity | reflexivity].
Defined.

(* ================================================================= *)
(** ** Further properties of the class *)

(** *** The random suffix and the identifier *)

Lemma advance_zero (w : World) : advance w 0 0 = w.
Proof. destruct w. unfold advance. simpl. now rewrite !Nat.add_0_r. Qed.

Lemma random_loop_world (n : nat) (alphabet s : string) (w : World) :
  snd (random_loop n alphabet s w) = advance w 0 n.
Proof.
  revert s w. induction n as [|n IH]; intros s w.
  - simpl. now rewrite advance_zero.
  - cbn [random_loop]. unfold bind at 1. cbn [Math_random]. rewrite IH.
    unfold advance. simpl. f_equal; lia.
Qed.

Lemma single_world (this : Uzid) (w : World) :
  snd (single this w) = advance w 1 (suffix_length this).
Proof.
  unfold single, random, bind, Date_now, ret.
  match goal with |- context [random_loop ?n ?a ?s ?w'] =>
    pose proof (random_loop_world n a s w') as Hw;
    destruct (random_loop n a s w') as [r w''] end.
  simpl in *. subst w''. unfold advance, suffix_length. simpl. f_equal; lia.
Qed.

(** X1.  [random()] returns exactly [length] characters, all of the
    generator's alphabet, after exactly [length] readings of the random
    source and none of the clock. *)
Theorem random_suffix (options : UzidOptions) (this : Uzid) (w : World) :
  constructor options = Ret this ->
  Z.of_nat (String.length (fst (random this w))) = length this
  /\ Js.all_chars (Js.includes (chars this)) (fst (random this w)) = true
  /\ snd (random this w) = advance w 0 (suffix_length this).
Proof.
  intros Hc. apply constructor_ok in Hc as [Hchars HL].
  unfold random. rewrite random_loop_world. rewrite Hchars.
  destruct (random_loop_spec (base this) (Z.to_nat (length this)) "" w)
    as (r & -> & Hlen & Hall).
  cbn [append]. rewrite Hlen, Hall. repeat split. lia.
Qed.

Lemma random_suffix_witness :
  Z.of_nat (String.length (fst (random uzid62 sample_world))) = length uzid62
  /\ Js.all_chars (Js.includes (chars uzid62)) (fst (random uzid62 sample_world))
     = true
  /\ snd (random uzid62 sample_world) = advance sample_world 0 (suffix_length uzid62).
Proof. apply (random_suffix options62 uzid62 sample_world). reflexivity. Defined.

(** X2.  [single()] writes the prefix, the encoded timestamp and a suffix of
    [length] characters of the alphabet, so that the identifier has as many
    characters as the three together; it reads the clock once and the random
    source [length] times. *)
Theorem single_layout (options : UzidOptions) (this : Uzid) (w : World) :
  constructor options = Ret this ->
  let stamp := toBaseString this (timestamp this w) (base this) in
  exists r,
    fst (single this w) = prefix this ++ stamp ++ r
    /\ Z.of_nat (String.length r) = length this
    /\ Js.all_chars (Js.includes (chars this)) r = true
    /\ Z.of_nat (String.length (fst (single this w)))
       = Z.of_nat (String.length (prefix this))
         + Z.of_nat (String.length stamp) + length this
    /\ snd (single this w) = advance w 1 (suffix_length this).
Proof.
  intros Hc. apply constructor_ok in Hc as [Hchars HL]. cbv zeta.
  destruct (single_spec this w Hchars) as (r & Hid & Hlen & Hall).
  exists r. unfold timestamp. rewrite Hid, !length_append, single_world.
  repeat split; try assumption; lia.
Qed.

Lemma single_layout_witness :
  exists r,
    fst (single uzid62 sample_world)
    = prefix uzid62 ++ toBaseString uzid62 (timestamp uzid62 sample_world) B62 ++ r
    /\ Z.of_nat (String.length r) = 6.
Proof.
  destruct (single_layout options62 uzid62 sample_world eq_refl)
    as (r & H1 & H2 & _).
  exists r. split; [exact H1 | exact H2].
Defined.

(** *** The encoder *)

(** X3.  Alphabet closure: the encoding of an integer [v >= 0] is not empty
    and holds only characters of the generator's alphabet. *)
Theorem encode_alphabet_closure (options : UzidOptions) (this : Uzid) (v : Z) :
  constructor options = Ret this ->
  0 <= v ->
  toBaseString this v (base this) <> ""
  /\ Js.all_chars (Js.includes (chars this)) (toBaseString this v (base this))
     = true.
Proof.
  intros Hc Hv. apply constructor_ok in Hc as [Hchars _].
  destruct (stamp_spec this v Hchars Hv) as [Hne Hall].
  split; [|exact Hall].
  intros E. rewrite E in Hne. simpl in Hne. lia.
Qed.

Lemma encode_alphabet_closure_witness :
  toBaseString uzid62 1700000000000 (base uzid62) <> ""
  /\ Js.all_chars (Js.includes (chars uzid62))
       (toBaseString uzid62 1700000000000 (base uzid62)) = true.
Proof.
  apply (encode_alphabet_closure options62 uzid62 1700000000000);
    [reflexivity | lia].
Defined.

(** The digits the loop writes for [n > 0] are as many as [n] needs. *)
Lemma digit_loop_count (b : Base) (fuel : nat) (n : Z) :
  0 < n < 2 ^ Z.of_nat fuel ->
  let len := Z.of_nat
               (String.length
                  (Js.digit_loop fuel (chars_of b) (base_value b) n "")) in
  base_value b ^ (len - 1) <= n < base_value b ^ len.
Proof.
  assert (Hb : 2 <= base_value b) by (destruct b; simpl; lia).
  revert n. induction fuel as [|fuel IH]; intros n Hn; cbv zeta.
  - simpl in Hn. lia.
  - rewrite digit_loop_last, length_append by lia.
    destruct (char_at_digit b (n mod base_value b)) as (c & -> & _).
    { apply Z.mod_pos_bound. lia. }
    cbn [String.length]. rewrite Nat2Z.inj_add. change (Z.of_nat 1) with 1.
    pose proof (Z.div_mod n (base_value b) ltac:(lia)) as Hdm.
    pose proof (Z.mod_pos_bound n (base_value b) ltac:(lia)) as Hm.
    destruct (Z.eq_dec (n / base_value b) 0) as [E|N].
    + rewrite E, digit_loop_zero by lia. simpl String.length.
      change (Z.of_nat 0 + 1 - 1) with 0. change (Z.of_nat 0 + 1) with 1.
      rewrite Z.pow_0_r, Z.pow_1_r. lia.
    + pose proof (quotient_bound (base_value b) n fuel Hb ltac:(lia)) as Hq.
      specialize (IH (n / base_value b) ltac:(lia)). cbv zeta in IH.
      match type of IH with context [Z.of_nat ?k] =>
        pose proof (Nat2Z.is_nonneg k) as Hk; set (len := Z.of_nat k) in * end.
      assert (Hlen : 1 <= len).
      { destruct (Z.eq_dec len 0) as [E|E]; [|lia].
        rewrite E, Z.pow_0_r in IH. lia. }
      replace (len + 1 - 1) with (Z.succ (len - 1)) by lia.
      replace (len + 1) with (Z.succ len) by lia.
      rewrite !Z.pow_succ_r by lia. nia.
Qed.

(** X4.  No padding: the encoding of [0] is the single digit [0], and the
    encoding of [0 < v < 2^53] has exactly as many digits as [v] needs in the
    generator's base, [base ^ (len - 1) <= v < base ^ len]. *)
Theorem encode_digit_count (options : UzidOptions) (this : Uzid) (v : Z) :
  constructor options = Ret this ->
  0 < v < 2 ^ 53 ->
  let len := Z.of_nat (String.length (toBaseString this v (base this))) in
  toBaseString this 0 (base this) = "0"
  /\ base_value (base this) ^ (len - 1) <= v < base_value (base this) ^ len.
Proof.
  intros Hc Hv. apply constructor_ok in Hc as [Hchars _]. cbv zeta.
  split; [now destruct (base this)|].
  pose proof (loop_fuel_enough v ltac:(lia)) as Hf.
  unfold toBaseString, Js.toString36. rewrite Hchars.
  destruct (Z.eqb_spec v 0); [lia|]. destruct (Z.ltb_spec v 0); [lia|].
  destruct (base this).
  - apply (digit_loop_count B36). lia.
  - rewrite encode_loop_exact by (split; (lia || reflexivity)).
    apply (digit_loop_count B62). lia.
Qed.

Lemma encode_digit_count_witness :
  toBaseString uzid62 0 (base uzid62) = "0"
  /\ 62 ^ 6 <= 1700000000000 < 62 ^ 7.
Proof.
  exact (encode_digit_count options62 uzid62 1700000000000 eq_refl
           (conj eq_refl eq_refl)).
Defined.

(** *** The decoder *)

Lemma indexOf_includes (s : string) (c : ascii) :
  (Js.indexOf s c =? -1) = negb (Js.includes s c) /\ -1 <= Js.indexOf s c.
Proof.
  induction s as [|d s [IH1 IH2]]; simpl; [split; [reflexivity | lia]|].
  destruct (Ascii.eqb d c); simpl; [split; [reflexivity | lia]|].
  rewrite <- IH1. destruct (Z.eqb_spec (Js.indexOf s c) (-1)) as [E|N].
  - split; [reflexivity | lia].
  - split; [|lia]. apply Z.eqb_neq. lia.
Qed.

(** One turn of the decoder keeps a number a non-negative integer, or
    infinity. *)
Lemma decode_step_nonneg (x : Js.number) (d : Z) :
  at_least 0 x -> 0 <= d ->
  at_least 0 (Js.add (Js.mul x (Js.of_Z 62)) (Js.of_Z d)).
Proof.
  assert (E1 : 2 ^ 53 = 9007199254740992) by reflexivity.
  assert (Hint : forall y, 0 <= y -> at_least 0 (Js.of_Q (inject_Z y))).
  { intros y Hy. destruct (Z.le_gt_cases y (2 ^ 53)).
    - rewrite of_Q_exact by lia. right. exists y. split; [reflexivity | lia].
    - apply (at_least_weaken (2 ^ 53)); [lia | apply of_Q_past; lia]. }
  intros [->|(z & -> & Hz)] Hd; [now left|].
  rewrite mul_of_Z.
  destruct (Hint (z * 62) ltac:(lia)) as [->|(z' & -> & Hz')]; [now left|].
  rewrite add_of_Z. apply Hint. lia.
Qed.

Lemma decode_loop_accepts (alphabet s : string) (out : Js.number) :
  at_least 0 out ->
  Js.all_chars (Js.includes alphabet) s = true ->
  exists x, decode_loop alphabet 62 s out = Ret x /\ at_least 0 x.
Proof.
  revert out. induction s as [|c s IH]; intros out Hout Hall;
    cbn [decode_loop Js.all_chars] in *.
  - eauto.
  - apply andb_prop in Hall as [Hc Hall].
    destruct (indexOf_includes alphabet c) as [E R]. rewrite Hc in E.
    rewrite E. apply Z.eqb_neq in E.
    apply IH; [apply decode_step_nonneg; [assumption | lia] | assumption].
Qed.

Lemma decode_loop_rejects (alphabet s : string) (out : Js.number) :
  Js.all_chars (Js.includes alphabet) s = false ->
  exists c, Js.includes alphabet c = false
            /\ decode_loop alphabet 62 s out = Throw (InvalidCharacter c).
Proof.
  revert out. induction s as [|c s IH]; intros out Hall;
    cbn [decode_loop Js.all_chars] in *.
  - discriminate.
  - destruct (indexOf_includes alphabet c) as [E _]. rewrite E.
    destruct (Js.includes alphabet c) eqn:Hc; cbn [negb andb] in *;
      [now apply IH | eauto].
Qed.

(** X5.  With base 62 the decoder returns a non-negative integer or
    [Infinity] on a text made of the generator's characters, and throws on
    any other text, naming a character that the alphabet does not hold; with
    base 36 it never throws. *)
Theorem decode_rejects_foreign_characters (this : Uzid) (str : string) :
  (if Js.all_chars (Js.includes (chars this)) str
   then exists x, fromBaseString this str B62 = Ret x
                  /\ (x = Js.Infinity false
                      \/ exists z, x = Js.of_Z z /\ 0 <= z)
   else exists c, Js.includes (chars this) c = false
                  /\ fromBaseString this str B62 = Throw (InvalidCharacter c))
  /\ exists x, fromBaseString this str B36 = Ret x.
Proof.
  split; [|unfold fromBaseString; eauto].
  unfold fromBaseString. cbn [base_value].
  destruct (Js.all_chars (Js.includes (chars this)) str) eqn:Hall.
  - apply decode_loop_accepts; [|exact Hall].
    right. exists 0. split; [reflexivity | lia].
  - apply decode_loop_rejects. exact Hall.
Qed.

(** *** The verifier *)

Lemma prefix_split (p s : string) :
  String.prefix p s = true -> exists rest, s = p ++ rest.
Proof.
  revert s. induction p as [|c p IH]; intros s H.
  - exists s. reflexivity.
  - destruct s as [|d s]; [discriminate|]. simpl in H.
    destruct (ascii_dec c d) as [->|]; [|discriminate].
    destruct (IH s H) as [rest ->]. exists rest. reflexivity.
Qed.

Lemma split_at (s : string) (k : nat) :
  (k <= String.length s)%nat ->
  exists a b, s = a ++ b /\ String.length a = k.
Proof.
  revert s. induction k as [|k IH]; intros s Hk.
  - exists "", s. split; reflexivity.
  - destruct s as [|c s]; [simpl in Hk; lia|].
    destruct (IH s) as (a & b & -> & Ha); [simpl in Hk; lia|].
    exists (String c a), b. simpl. now rewrite Ha.
Qed.

(** [s.slice(-n)] of a string shorter than [n] is the whole string. *)
Lemma slice_short (s : string) (n : Z) :
  Z.of_nat (String.length s) < n -> Js.slice s (- n) None = s.
Proof.
  intros Hn. unfold Js.slice. cbv beta zeta.
  destruct (Z.ltb_spec (- n) 0) as [_|?]; [|lia].
  rewrite Z.max_r by lia. rewrite Z.sub_0_r, Nat2Z.id. apply substring_all.
Qed.

(** [verify] on the prefix followed by less than [length] characters. *)
Lemma verify_too_short (this : Uzid) (rest : string) :
  Z.of_nat (String.length rest) < length this ->
  verify this (prefix this ++ rest) = false.
Proof.
  intros Hlen. unfold verify, Js.startsWith.
  rewrite prefix_append, slice_drop.
  destruct (_ || _); [reflexivity|].
  destruct (String.length rest =? 0)%nat; [reflexivity|].
  destruct (negb (Js.all_chars _ rest)); [reflexivity|].
  destruct (Z.eqb_spec (length this) 0) as [?|_]; [lia|].
  rewrite slice_short by assumption.
  destruct (Z.eqb_spec (Z.of_nat (String.length rest)) (length this)); [lia|].
  reflexivity.
Qed.

(** [verify] on the prefix followed by some text and a suffix of the
    configured length, whatever the characters. *)
Lemma verify_split (this : Uzid) (stamp r : string) :
  0 <= length this ->
  String.length r = Z.to_nat (length this) ->
  verify this (prefix this ++ stamp ++ r)
  = negb (String.length (stamp ++ r) =? 0)%nat
    && Js.all_chars (Js.includes (chars this)) (stamp ++ r)
    && decodes_to_date this stamp.
Proof.
  intros HL Hlen.
  destruct (Js.all_chars (Js.includes (chars this)) r) eqn:Hall.
  - rewrite verify_parts, all_chars_append, Hall, andb_true_r by assumption.
    reflexivity.
  - rewrite all_chars_append, Hall, andb_false_r, andb_false_r. cbn [andb].
    unfold verify, Js.startsWith. rewrite prefix_append, slice_drop.
    destruct (_ || _); [reflexivity|].
    destruct (String.length (stamp ++ r) =? 0)%nat; [reflexivity|].
    now rewrite all_chars_append, Hall, andb_false_r.
Qed.

(** X6.  [verify] accepts exactly the strings made of the prefix, a
    timestamp part and a suffix of [length] characters, where the two parts
    together are not empty and hold only characters of the alphabet, and the
    timestamp part decodes to a date. *)
Theorem verify_accepts_iff (options : UzidOptions) (this : Uzid) (id : string) :
  constructor options = Ret this ->
  verify this id = true
  <-> exists stamp r,
        id = prefix this ++ stamp ++ r
        /\ String.length r = suffix_length this
        /\ stamp ++ r <> ""
        /\ Js.all_chars (Js.includes (chars this)) (stamp ++ r) = true
        /\ decodes_to_date this stamp = true.
Proof.
  intros Hc. apply constructor_ok in Hc as [_ HL]. unfold suffix_length.
  assert (Hsplit : forall stamp r,
    String.length r = Z.to_nat (length this) ->
    verify this (prefix this ++ stamp ++ r) = true
    <-> stamp ++ r <> ""
        /\ Js.all_chars (Js.includes (chars this)) (stamp ++ r) = true
        /\ decodes_to_date this stamp = true).
  { intros stamp r Hlen. rewrite verify_split by (assumption || lia).
    rewrite !andb_true_iff, negb_true_iff, Nat.eqb_neq.
    assert (String.length (stamp ++ r) <> 0%nat <-> stamp ++ r <> "")
      by (destruct (stamp ++ r); simpl; split; intros; (discriminate || lia || congruence)).
    tauto. }
  split.
  - intros H.
    assert (Hp : String.prefix (prefix this) id = true).
    { unfold verify, Js.startsWith in H.
      destruct (String.prefix (prefix this) id); [reflexivity|].
      now rewrite orb_true_r in H. }
    apply prefix_split in Hp as [rest ->].
    destruct (Z.lt_ge_cases (Z.of_nat (String.length rest)) (length this))
      as [Hshort|Hlong].
    { now rewrite verify_too_short in H. }
    destruct (split_at rest (String.length rest - Z.to_nat (length this)))
      as (stamp & r & -> & Hs); [lia|].
    rewrite length_append in Hs.
    assert (Hr : String.length r = Z.to_nat (length this)).
    { rewrite length_append in Hlong. lia. }
    exists stamp, r. apply Hsplit in H; [|assumption]. tauto.
  - intros (stamp & r & -> & Hr & H). apply Hsplit; assumption.
Qed.

Lemma verify_accepts_iff_witness :
  verify uzid62 "srvtVCOKGI037bfj" = true
  <-> exists stamp r,
        "srvtVCOKGI037bfj" = prefix uzid62 ++ stamp ++ r
        /\ String.length r = suffix_length uzid62
        /\ stamp ++ r <> ""
        /\ Js.all_chars (Js.includes (chars uzid62)) (stamp ++ r) = true
        /\ decodes_to_date uzid62 stamp = true.
Proof. exact (verify_accepts_iff options62 uzid62 "srvtVCOKGI037bfj" eq_refl). Defined.

Lemma date_of_product_iff (a b : Z) :
  0 <= a -> 0 <= b ->
  Js.isNaN (Js.Date_getTime (Js.mul (Js.of_Z a) (Js.of_Z b)))
  = negb (a * b <=? Js.MAX_TIME).
Proof.
  intros Ha Hb. assert (E1 : 2 ^ 53 = 9007199254740992) by reflexivity.
  rewrite mul_of_Z. destruct (Z.le_gt_cases (a * b) (2 ^ 53)) as [Hle|Hgt].
  - rewrite of_Q_exact, date_of_integer, Z.abs_eq by nia. reflexivity.
  - rewrite date_of_large
      by (apply (at_least_weaken (2 ^ 53)); [lia | apply of_Q_past; lia]).
    unfold Js.MAX_TIME.
    destruct (Z.leb_spec (a * b) 8640000000000000); [lia | reflexivity].
Qed.

(** A number beyond the dates, taken in either unit, is not a date. *)
Lemma date_of_large_product (x : Js.number) (u : Z) :
  at_least (2 ^ 53 - 8) x -> u = 1 \/ u = 1000 ->
  Js.isNaN (Js.Date_getTime (Js.mul x (Js.of_Z u))) = true.
Proof.
  assert (E1 : 2 ^ 53 = 9007199254740992) by reflexivity.
  intros [->|(z & -> & Hz)] Hu.
  - destruct Hu as [->| ->]; reflexivity.
  - rewrite date_of_product_iff by lia. unfold Js.MAX_TIME.
    destruct (Z.leb_spec (z * u) 8640000000000000); [lia | reflexivity].
Qed.

(** [verify] on an identifier laid out with the alphabet of the generator's
    base. *)
Lemma verify_layout_range (this : Uzid) (ts : Z) (r : string) :
  chars this = chars_of (base this) ->
  0 <= length this ->
  0 <= ts ->
  String.length r = suffix_length this ->
  Js.all_chars (Js.includes (chars this)) r = true ->
  verify this (prefix this ++ toBaseString this ts (base this) ++ r)
  = (ts * unit_of (precision this) <=? Js.MAX_TIME).
Proof.
  intros Hchars HL Hts Hlen Hall.
  assert (E1 : 2 ^ 53 = 9007199254740992) by reflexivity.
  pose proof (unit_of_cases (precision this)) as Hu.
  destruct (stamp_spec this ts Hchars Hts) as [Hne Hstamp].
  rewrite verify_parts by (assumption || lia).
  unfold decodes_to_date. rewrite Hstamp, length_append.
  destruct (Nat.eqb_spec (String.length (toBaseString this ts (base this))
                          + String.length r) 0) as [?|_]; [lia|].
  cbn [negb andb].
  destruct (Z.lt_ge_cases ts (2 ^ 53)) as [Hlt|Hge].
  - rewrite (roundtrip_of_alphabet this ts Hchars (conj Hts Hlt)).
    rewrite date_of_product_iff, negb_involutive by lia. reflexivity.
  - destruct (roundtrip_past this ts Hchars Hge) as (x & -> & Hx).
    rewrite date_of_large_product by assumption. unfold Js.MAX_TIME.
    destruct (Z.leb_spec (ts * unit_of (precision this)) 8640000000000000);
      [lia | reflexivity].
Qed.

(** X7.  On an identifier laid out by a generator, [verify] answers whether
    the timestamp, taken in the generator's unit, is within the range of
    dates: at most [8.64e15] milliseconds. *)
Theorem verify_timestamp_range (options : UzidOptions) (this : Uzid) (ts : Z)
  (r : string) :
  constructor options = Ret this ->
  0 <= ts ->
  String.length r = suffix_length this ->
  Js.all_chars (Js.includes (chars this)) r = true ->
  verify this (prefix this ++ toBaseString this ts (base this) ++ r)
  = (ts * unit_of (precision this) <=? Js.MAX_TIME).
Proof.
  intros Hc. apply constructor_ok in Hc as [Hchars HL].
  now apply verify_layout_range.
Qed.

Lemma verify_timestamp_range_witness :
  verify default_uzid (prefix default_uzid
                       ++ toBaseString default_uzid 8640000000001 B36 ++ "az09")
  = false.
Proof.
  exact (verify_timestamp_range no_options default_uzid 8640000000001 "az09"
           eq_refl ltac:(lia) eq_refl eq_refl).
Defined.

(** X8.  [verify] does not look at the precision an identifier was built
    with: a generator answers, on an identifier of a generator with the same
    prefix, base and length, whether the timestamp taken in its own unit is
    a date.  So the generator of milliseconds accepts the identifiers of the
    generator of seconds. *)
Theorem verify_ignores_precision (o1 o2 : UzidOptions) (g1 g2 : Uzid) (w : World) :
  constructor o1 = Ret g1 ->
  constructor o2 = Ret g2 ->
  prefix g1 = prefix g2 -> base g1 = base g2 -> length g1 = length g2 ->
  0 <= time w (reads w) ->
  verify g2 (fst (single g1 w))
  = (timestamp g1 w * unit_of (precision g2) <=? Js.MAX_TIME).
Proof.
  intros H1 H2 Hp Hb Hl Hnow.
  apply constructor_ok in H1 as [Hc1 _]. apply constructor_ok in H2 as [Hc2 HL].
  destruct (single_spec g1 w Hc1) as (r & -> & Hlen & Hall).
  assert (Hc : chars g1 = chars g2) by (rewrite Hc1, Hc2, Hb; reflexivity).
  assert (Hs : forall v, toBaseString g1 v (base g1) = toBaseString g2 v (base g2))
    by (intros v; unfold toBaseString; now rewrite Hb, Hc).
  rewrite Hs, Hp. unfold timestamp. rewrite Hc in Hall. rewrite Hl in Hlen.
  apply verify_layout_range; try assumption; [lia|].
  apply Z.div_pos; [assumption|].
  destruct (unit_of_cases (precision g1)) as [E|E]; rewrite E; lia.
Qed.

Lemma verify_ignores_precision_witness :
  verify (mkUzid "" B36 4 chars36 (Some "ms")) (fst (single default_uzid sample_world))
  = true.
Proof.
  exact (verify_ignores_precision no_options
           (mkOptions None None None (Some "ms"))
           default_uzid (mkUzid "" B36 4 chars36 (Some "ms")) sample_world
           eq_refl eq_refl eq_refl eq_refl eq_refl ltac:(discriminate)).
Defined.

(** *** Identifiers over time *)

Lemma single_shape (this : Uzid) (w : World) :
  exists r,
    fst (single this w)
    = prefix this ++ toBaseString this (timestamp this w) (base this) ++ r.
Proof.
  unfold single, bind, Date_now, ret, timestamp.
  destruct (random this _) as [r w']. simpl. eauto.
Qed.

(** X9.  Sortability over time with base 36: of two identifiers of one
    generator whose timestamps are written with as many digits, the one with
    the smaller timestamp comes first in code unit order, whatever the
    random suffixes. *)
Theorem single_base36_in_order (this : Uzid) (w1 w2 : World) :
  base this = B36 ->
  0 <= timestamp this w1 < timestamp this w2 ->
  String.length (toBaseString this (timestamp this w1) B36)
  = String.length (toBaseString this (timestamp this w2) B36) ->
  String.ltb (fst (single this w1)) (fst (single this w2)) = true.
Proof.
  intros Hb Ht Hlen.
  destruct (single_shape this w1) as [r1 ->].
  destruct (single_shape this w2) as [r2 ->].
  rewrite Hb. now apply base36_ids_in_order.
Qed.

Lemma single_base36_in_order_witness :
  String.ltb (fst (single default_uzid (world_at 1700000000000)))
             (fst (single default_uzid (world_at 1700000001000))) = true.
Proof.
  apply (single_base36_in_order default_uzid);
    [reflexivity | vm_compute; split; [discriminate | reflexivity] | reflexivity].
Defined.

Lemma append_inj_l (p a b : string) : p ++ a = p ++ b -> a = b.
Proof. induction p as [|c p IH]; simpl; [auto | intros [= H]; auto]. Qed.

Lemma append_inj_suffix (a b r1 r2 : string) :
  a ++ r1 = b ++ r2 -> String.length r1 = String.length r2 -> a = b.
Proof.
  revert b. induction a as [|c a IH]; intros b H Hlen.
  - destruct b as [|d b]; [reflexivity|].
    simpl in H. rewrite H in Hlen. simpl in Hlen. rewrite length_append in Hlen. lia.
  - destruct b as [|d b].
    + simpl in H. rewrite <- H in Hlen. simpl in Hlen.
      rewrite length_append in Hlen. lia.
    + simpl in H. injection H as -> H. f_equal. now apply IH.
Qed.

(** X10.  Identifiers of different timestamps differ: two identifiers of one
    generator, built at timestamps below [2^53], are equal only if their
    timestamps are, whatever the random suffixes. *)
Theorem distinct_timestamps_distinct_ids (options : UzidOptions) (this : Uzid)
  (w1 w2 : World) :
  constructor options = Ret this ->
  0 <= timestamp this w1 < 2 ^ 53 -> 0 <= timestamp this w2 < 2 ^ 53 ->
  timestamp this w1 <> timestamp this w2 ->
  fst (single this w1) <> fst (single this w2).
Proof.
  intros Hc H1 H2 Hne E. apply constructor_ok in Hc as [Hchars _].
  destruct (single_spec this w1 Hchars) as (r1 & E1 & L1 & _).
  destruct (single_spec this w2 Hchars) as (r2 & E2 & L2 & _).
  rewrite E1, E2 in E. apply append_inj_l in E.
  apply append_inj_suffix in E; [|congruence].
  pose proof (roundtrip_of_alphabet this _ Hchars H1) as R1.
  pose proof (roundtrip_of_alphabet this _ Hchars H2) as R2.
  fold (timestamp this w1) in E. fold (timestamp this w2) in E.
  rewrite E, R2 in R1. injection R1 as R1. lia.
Qed.

Lemma distinct_timestamps_distinct_ids_witness :
  fst (single uzid62 (world_at 1699999999991))
  <> fst (single uzid62 (world_at 1699999999992)).
Proof.
  apply (distinct_timestamps_distinct_ids options62 uzid62);
    [reflexivity | split; [discriminate | reflexivity]
     | split; [discriminate | reflexivity] | discriminate].
Defined.

(** *** Batches *)

Lemma advance_advance (w : World) (a b c d : nat) :
  advance (advance w a b) c d = advance w (a + c) (b + d).
Proof. unfold advance. simpl. f_equal; lia. Qed.

Lemma fold_Set_add_length (l : list string) (ids : StringSet) :
  (List.length (fold_left Set_add l ids) <= List.length ids + List.length l)%nat.
Proof.
  revert ids. induction l as [|x l IH]; intros ids; simpl; [lia|].
  specialize (IH (Set_add ids x)). pose proof (Set_add_length ids x). lia.
Qed.

Lemma draw_ids_length (j : nat) (this : Uzid) (w : World) :
  List.length (draw_ids j this w) = j.
Proof.
  revert w. induction j as [|j IH]; intros w; simpl; [reflexivity|].
  destruct (single this w) as [id w1]. simpl. now rewrite IH.
Qed.

(** What the loop of [multiple] has done when it ends: it called [single]
    some [j] times, as long as the set was too small, and sorts the set of
    the identifiers it drew. *)
Lemma multiple_loop_trace (fuel : nat) (this : Uzid) (count : Js.number)
  (ids : StringSet) (w : World) (l : list string) (w' : World) :
  multiple_loop fuel this count ids w = (Ret l, w') ->
  exists j,
    (j <= fuel)%nat
    /\ l = StringSort.sort (fold_left Set_add (draw_ids j this w) ids)
    /\ Js.ltb (Set_size (fold_left Set_add (draw_ids j this w) ids)) count = false
    /\ (forall i, (i < j)%nat ->
          Js.ltb (Set_size (fold_left Set_add (draw_ids i this w) ids)) count = true)
    /\ w' = advance w j (j * suffix_length this).
Proof.
  revert ids w. induction fuel as [|fuel IH]; intros ids w; cbn [multiple_loop];
    destruct (Js.ltb (Set_size ids) count) eqn:Hcond; try discriminate.
  1, 3: intros [= <- <-]; exists 0%nat; simpl; rewrite advance_zero;
    repeat split; try assumption; try lia; intros i Hi; lia.
  pose proof (single_world this w) as Hw.
  destruct (single this w) as [id w1] eqn:Hs. simpl in Hw. intros H.
  destruct (IH _ _ H) as (j & Hj & Hl & Hfin & Hmin & Hw').
  exists (S j). cbn [draw_ids]. rewrite Hs. cbn [fold_left].
  repeat split; try assumption; try lia.
  - intros [|i] Hi; [exact Hcond|].
    cbn [draw_ids]. rewrite Hs. cbn [fold_left]. apply Hmin. lia.
  - rewrite Hw', Hw, advance_advance. f_equal; lia.
Qed.

(** X11.  What a batch is: when [multiple(count)] returns, it has called
    [single] some [j] times, [j] being the first number of calls after which
    the set of identifiers drawn holds [count] members; it returns that set
    sorted, and it has read the clock [j] times and the random source
    [j * length] times. *)
Theorem batch_trace (fuel : nat) (this : Uzid) (count : Js.number) (w : World)
  (l : list string) (w' : World) :
  multiple fuel this count w = (Ret l, w') ->
  exists j,
    (j <= fuel)%nat
    /\ l = StringSort.sort (fold_left Set_add (draw_ids j this w) [])
    /\ Js.ltb (Set_size (fold_left Set_add (draw_ids j this w) [])) count = false
    /\ (forall i, (i < j)%nat ->
          Js.ltb (Set_size (fold_left Set_add (draw_ids i this w) [])) count = true)
    /\ w' = advance w j (j * suffix_length this).
Proof.
  unfold multiple. destruct (negb (Js.isInteger count) || _); [discriminate|].
  apply multiple_loop_trace.
Qed.

Lemma batch_trace_witness :
  exists l w' j,
    multiple 5 uzid62 (Js.of_Z 3) sample_world = (Ret l, w')
    /\ (j <= 5)%nat
    /\ l = StringSort.sort (fold_left Set_add (draw_ids j uzid62 sample_world) [])
    /\ w' = advance sample_world j (j * suffix_length uzid62).
Proof.
  destruct (multiple 5 uzid62 (Js.of_Z 3) sample_world) as [[l|e|] w'] eqn:E;
    [| exfalso; apply (f_equal fst) in E; vm_compute in E; discriminate ..].
  destruct (batch_trace 5 uzid62 (Js.of_Z 3) sample_world l w' E)
    as (j & Hj & Hl & _ & _ & Hw).
  exists l, w', j. auto.
Defined.

(** [single] returns an identifier that [verify] accepts and that starts
    with the prefix, when the clock shows a time value at or after the
    epoch. *)
Lemma single_verifies (this : Uzid) (w : World) :
  chars this = chars_of (base this) -> 0 <= length this ->
  0 <= time w (reads w) <= Js.MAX_TIME ->
  verify this (fst (single this w)) = true
  /\ Js.startsWith (fst (single this w)) (prefix this) = true.
Proof.
  intros Hchars HL Hnow.
  destruct (single_spec this w Hchars) as (r & -> & Hlen & Hall).
  assert (Hu : 0 < unit_of (precision this))
    by (destruct (unit_of_cases (precision this)) as [E|E]; rewrite E; lia).
  split; [|apply prefix_append].
  rewrite verify_layout_range; try assumption.
  - apply Z.leb_le.
    pose proof (Z.mul_div_le (time w (reads w)) _ Hu). lia.
  - apply Z.div_pos; lia.
Qed.

Lemma drawn_ids_verify (this : Uzid) (j : nat) (w : World) (id : string) :
  chars this = chars_of (base this) -> 0 <= length this ->
  (forall k, 0 <= time w k <= Js.MAX_TIME) ->
  In id (draw_ids j this w) ->
  verify this id = true /\ Js.startsWith id (prefix this) = true.
Proof.
  intros Hchars HL. revert w. induction j as [|j IH]; intros w Hclock Hin.
  - destruct Hin.
  - cbn [draw_ids] in Hin.
    pose proof (single_verifies this w Hchars HL (Hclock _)) as Hv.
    pose proof (single_world this w) as Hw.
    destruct (single this w) as [id1 w1]. simpl in Hv, Hw.
    destruct Hin as [<-|Hin]; [exact Hv|].
    apply (IH w1); [|exact Hin]. rewrite Hw. exact Hclock.
Qed.

(** X12.  Every identifier of a batch is accepted by [verify] and starts
    with the prefix, when the clock shows time values at or after the
    epoch. *)
Theorem batch_members_verify (options : UzidOptions) (this : Uzid)
  (fuel : nat) (count : Js.number) (w : World) (l : list string) (w' : World) :
  constructor options = Ret this ->
  (forall k, 0 <= time w k <= Js.MAX_TIME) ->
  multiple fuel this count w = (Ret l, w') ->
  forall id, In id l ->
    verify this id = true /\ Js.startsWith id (prefix this) = true.
Proof.
  intros Hc Hclock H id Hin. apply constructor_ok in Hc as [Hchars HL].
  unfold multiple in H.
  destruct (negb (Js.isInteger count) || _); [discriminate|].
  apply multiple_loop_trace in H as (j & _ & -> & _).
  apply (Permutation_in _ (Permutation_sym (StringSort.Permuted_sort _))) in Hin.
  apply fold_Set_add_In in Hin as [[]|Hin].
  apply (drawn_ids_verify this j w); (assumption || lia).
Qed.

Lemma batch_members_verify_witness :
  exists l w',
    multiple 5 uzid62 (Js.of_Z 3) steady_world = (Ret l, w')
    /\ forall id, In id l ->
         verify uzid62 id = true /\ Js.startsWith id (prefix uzid62) = true.
Proof.
  destruct (multiple 5 uzid62 (Js.of_Z 3) steady_world) as [[l|e|] w'] eqn:E;
    [| exfalso; apply (f_equal fst) in E; vm_compute in E; discriminate ..].
  exists l, w'. split; [reflexivity|].
  apply (batch_members_verify options62 uzid62 5 (Js.of_Z 3) steady_world l w');
    [reflexivity | | exact E].
  intros k. unfold steady_world, Js.MAX_TIME. cbn [time]. lia.
Defined.

(** *** The constructor *)

Lemma length_rejected_iff (len : Js.number) :
  negb (Js.isInteger len) || Js.ltb len (Js.of_Z 0) || Js.ltb (Js.of_Z 20) len
  = true
  <-> Js.isInteger len = false
      \/ Js.ltb len (Js.of_Z 0) = true
      \/ Js.ltb (Js.of_Z 20) len = true.
Proof. rewrite !orb_true_iff, negb_true_iff. tauto. Qed.

(** X13.  The constructor fails with [InvalidLength] exactly when the
    precision and the base pass their checks, which come first, and the
    length (4 when left out) is not an integer, is negative or exceeds 20. *)
Theorem invalid_length_iff (options : UzidOptions) :
  constructor options = Throw InvalidLength
  <-> bad_precision (opt_precision options) = false
      /\ (Js.eqb (chosen_base options) (Js.of_Z 36) = true
          \/ Js.eqb (chosen_base options) (Js.of_Z 62) = true)
      /\ (Js.isInteger (chosen_length options) = false
          \/ Js.ltb (chosen_length options) (Js.of_Z 0) = true
          \/ Js.ltb (Js.of_Z 20) (chosen_length options) = true).
Proof.
  rewrite <- length_rejected_iff.
  unfold constructor. fold (chosen_base options). fold (chosen_length options).
  destruct (bad_precision (opt_precision options)).
  { split; [discriminate | intros [H _]; discriminate H]. }
  destruct (Js.eqb (chosen_base options) (Js.of_Z 36));
    destruct (Js.eqb (chosen_base options) (Js.of_Z 62)); cbn [negb andb].
  4: { split; [discriminate | intros (_ & [H|H] & _); discriminate H]. }
  all: destruct (negb (Js.isInteger (chosen_length options)) || _ || _);
    split; [auto | reflexivity | discriminate | intros (_ & _ & H); discriminate H].
Qed.

(** X14.  What a successful construction builds: the prefix, base, length
    and precision of the options (an empty prefix, base 36 and length 4 when
    left out), a length between 0 and 20, and the alphabet of the base, which
    holds as many characters as the base, each found at its own index. *)
Theorem constructor_builds (options : UzidOptions) (this : Uzid) :
  constructor options = Ret this ->
  prefix this = nullish (opt_prefix options) ""
  /\ Js.eqb (chosen_base options) (Js.of_Z (base_value (base this))) = true
  /\ Js.eqb (chosen_length options) (Js.of_Z (length this)) = true
  /\ 0 <= length this <= 20
  /\ precision this = opt_precision options
  /\ chars this = chars_of (base this)
  /\ Z.of_nat (String.length (chars this)) = base_value (base this)
  /\ (forall i, 0 <= i < base_value (base this) ->
        exists c, Js.char_at (chars this) i = String c ""
                  /\ Js.indexOf (chars this) c = i).
Proof.
  intros Hc. pose proof (constructor_ok _ _ Hc) as [Hchars HL].
  assert (Halphabet : forall i, 0 <= i < base_value (base this) ->
            exists c, Js.char_at (chars this) i = String c ""
                      /\ Js.indexOf (chars this) c = i).
  { intros i Hi. rewrite Hchars.
    destruct (char_at_digit (base this) i Hi) as (c & H1 & H2 & _). eauto. }
  assert (Hsize : Z.of_nat (String.length (chars this)) = base_value (base this))
    by (rewrite Hchars; apply alphabet_length).
  unfold constructor in Hc.
  fold (chosen_base options) in Hc. fold (chosen_length options) in Hc.
  destruct (bad_precision _); [discriminate|].
  destruct (negb (Js.eqb (chosen_base options) (Js.of_Z 36)) && _) eqn:Hb;
    [discriminate|].
  destruct (negb (Js.isInteger _) || _ || _) eqn:Hlen; [discriminate|].
  apply orb_false_elim in Hlen as [Hlen _].
  apply orb_false_elim in Hlen as [Hint _]. apply negb_false_iff in Hint.
  assert (Hp : prefix this = nullish (opt_prefix options) "").
  { injection Hc as <-. cbn [prefix]. now destruct (opt_prefix options) as [[|c p]|]. }
  assert (Hbase : Js.eqb (chosen_base options) (Js.of_Z (base_value (base this)))
                  = true).
  { injection Hc as <-. cbn [base].
    destruct (Js.eqb (chosen_base options) (Js.of_Z 62)) eqn:E62; [exact E62|].
    destruct (Js.eqb (chosen_base options) (Js.of_Z 36)) eqn:E36;
      [exact E36 | discriminate]. }
  assert (Hl : Js.eqb (chosen_length options) (Js.of_Z (length this)) = true).
  { injection Hc as <-. cbn [length].
    destruct (chosen_length options) as [q| |neg]; try discriminate.
    cbn [Js.isInteger] in Hint. apply Z.eqb_eq in Hint.
    cbn [to_Z Js.eqb Js.of_Z]. apply Qeq_bool_iff. unfold Qeq, inject_Z.
    cbn [Qnum Qden]. 
    pose proof (Z.div_mod (Qnum q) (Zpos (Qden q)) ltac:(lia)). lia. }
  assert (Hprec : precision this = opt_precision options)
    by (injection Hc as <-; reflexivity).
  tauto.
Qed.

Lemma constructor_builds_witness :
  prefix uzid62 = "srv" /\ length uzid62 = 6 /\ chars uzid62 = chars_of B62.
Proof.
  destruct (constructor_builds options62 uzid62 eq_refl)
    as (H1 & _ & _ & _ & _ & H2 & _).
  repeat split; assumption.
Defined.

(** *** The decoder on canonical texts *)

Lemma chars_ok (b : Base) (c : ascii) : char_ok b c = true.
Proof.
  destruct b; destruct c as [[] [] [] [] [] [] [] []]; vm_compute; reflexivity.
Qed.

Lemma alphabet_char (b : Base) (c : ascii) :
  Js.includes (chars_of b) c = true ->
  let i := Js.indexOf (chars_of b) c in
  0 <= i < base_value b
  /\ Js.char_at (chars_of b) i = String c ""
  /\ (b = B36 -> Js.digit36_value c = Some i).
Proof.
  intros Hin. cbv zeta. pose proof (chars_ok b c) as H. unfold char_ok in H.
  rewrite Hin in H.
  apply andb_prop in H as [H H4]. apply andb_prop in H as [H H3].
  apply andb_prop in H as [H1 H2].
  apply Z.leb_le in H1. apply Z.ltb_lt in H2. apply String.eqb_eq in H3.
  repeat split; try assumption.
  intros ->. destruct (Js.digit36_value c) as [v|]; [|discriminate].
  apply Z.eqb_eq in H4. now subst.
Qed.

(** The digits of [n], whatever the fuel. *)
Lemma digit_loop_any_fuel (b : Base) (fuel : nat) (n : Z) :
  0 < n < 2 ^ Z.of_nat fuel ->
  Js.digit_loop fuel (chars_of b) (base_value b) n ""
  = Js.digit_loop (Js.loop_fuel n) (chars_of b) (base_value b) n "".
Proof.
  intros Hn. assert (Hb : 2 <= base_value b) by (destruct b; simpl; lia).
  pose proof (loop_fuel_enough n ltac:(lia)) as Hf.
  destruct (Nat.le_ge_cases fuel (Js.loop_fuel n)) as [Hle|Hle].
  - replace (Js.loop_fuel n) with (fuel + (Js.loop_fuel n - fuel))%nat by lia.
    symmetry. apply digit_loop_fuel; lia.
  - replace fuel with (Js.loop_fuel n + (fuel - Js.loop_fuel n))%nat at 1 by lia.
    apply digit_loop_fuel; lia.
Qed.

(** A number below the base is written with its one digit. *)
Lemma digits_single (b : Base) (i : Z) :
  0 < i < base_value b ->
  Js.digit_loop (Js.loop_fuel i) (chars_of b) (base_value b) i ""
  = Js.char_at (chars_of b) i.
Proof.
  intros Hi. assert (Hb : 2 <= base_value b) by (destruct b; cbn [base_value]; lia).
  unfold Js.loop_fuel. rewrite digit_loop_last by lia.
  rewrite Z.div_small, Z.mod_small, digit_loop_zero by lia. reflexivity.
Qed.

(** Appending a digit to the digits of [n > 0]. *)
Lemma digits_snoc (b : Base) (n : Z) (c : ascii) :
  0 < n -> Js.includes (chars_of b) c = true ->
  let m := n * base_value b + Js.indexOf (chars_of b) c in
  Js.digit_loop (Js.loop_fuel m) (chars_of b) (base_value b) m ""
  = Js.digit_loop (Js.loop_fuel n) (chars_of b) (base_value b) n ""
    ++ String c "".
Proof.
  intros Hn Hc. cbv zeta.
  destruct (alphabet_char b c Hc) as (Hi & Hat & _).
  assert (Hb : 2 <= base_value b) by (destruct b; simpl; lia).
  set (i := Js.indexOf (chars_of b) c) in *.
  set (m := n * base_value b + i).
  assert (Hm : 0 < m) by (unfold m; nia).
  assert (Hq : m / base_value b = n).
  { unfold m. rewrite Z.div_add_l by lia. rewrite Z.div_small by lia. lia. }
  assert (Hr : m mod base_value b = i).
  { unfold m. rewrite Z.add_comm, Z.mod_add by lia. apply Z.mod_small. lia. }
  pose proof (loop_fuel_enough m Hm) as Hf.
  unfold Js.loop_fuel at 1. unfold Js.loop_fuel in Hf.
  rewrite digit_loop_last, Hq, Hr, Hat by lia.
  f_equal. apply digit_loop_any_fuel.
  pose proof (quotient_bound (base_value b) m _ Hb (conj Hm Hf)). lia.
Qed.

(** Decoding a text after a positive number, and encoding the result, gives
    the digits of the number followed by the text. *)
Lemma decode_then_encode (b : Base) (s : string) (acc : Z) :
  0 < acc ->
  Js.all_chars (Js.includes (chars_of b)) s = true ->
  exists z,
    0 < z
    /\ exact_decode (chars_of b) (base_value b) s acc = Ret z
    /\ Js.digit_loop (Js.loop_fuel z) (chars_of b) (base_value b) z ""
       = Js.digit_loop (Js.loop_fuel acc) (chars_of b) (base_value b) acc "" ++ s.
Proof.
  revert acc. induction s as [|c s IH]; intros acc Hacc Hall.
  - exists acc. now rewrite append_nil_r.
  - cbn [Js.all_chars] in Hall. apply andb_prop in Hall as [Hc Hall].
    destruct (alphabet_char b c Hc) as (Hi & _).
    assert (Hb : 2 <= base_value b) by (destruct b; simpl; lia).
    cbn [exact_decode].
    destruct (Z.eqb_spec (Js.indexOf (chars_of b) c) (-1)) as [?|_]; [lia|].
    destruct (IH (acc * base_value b + Js.indexOf (chars_of b) c)) as (z & Hz & Hd & He);
      [nia | assumption |].
    exists z. repeat split; try assumption.
    rewrite He, digits_snoc, append_assoc by assumption. reflexivity.
Qed.

(** In the alphabet of base 36, [parseInt] reads what the loop of the decoder
    computes. *)
Lemma parseInt36_as_decode (s : string) (acc : Z) :
  Js.all_chars (Js.includes chars36) s = true ->
  exact_decode chars36 36 s acc
  = Ret (fold_left (fun a d => a * 36 + d) (Js.leading_digits s) acc)
  /\ (s <> "" -> Js.leading_digits s <> []).
Proof.
  revert acc. induction s as [|c s IH]; intros acc Hall.
  - split; [reflexivity | intros H; now elim H].
  - cbn [Js.all_chars] in Hall. apply andb_prop in Hall as [Hc Hall].
    destruct (alphabet_char B36 c Hc) as (Hi & _ & Hv).
    change (chars_of B36) with chars36 in *. specialize (Hv eq_refl).
    cbn [exact_decode Js.leading_digits]. rewrite Hv.
    destruct (Z.eqb_spec (Js.indexOf chars36 c) (-1)) as [?|_]; [lia|].
    split; [apply IH; assumption | discriminate].
Qed.

(** One turn of the decoder on a number from [2^53] on. *)
Lemma decode_step_big (x : Js.number) (radix d : Z) :
  1 <= radix -> at_least (2 ^ 53) x -> 0 <= d ->
  at_least (2 ^ 53) (Js.add (Js.mul x (Js.of_Z radix)) (Js.of_Z d)).
Proof.
  assert (E1 : 2 ^ 53 = 9007199254740992) by reflexivity.
  intros Hr [->|(z & -> & Hz)] Hd.
  - left. destruct radix; try lia. reflexivity.
  - rewrite mul_of_Z.
    destruct (of_Q_past (z * radix) ltac:(nia)) as [->|(z' & -> & Hz')];
      [now left|].
    rewrite add_of_Z. apply of_Q_past. lia.
Qed.

(** From [2^53] on the decoder stays there. *)
Lemma decode_loop_past (alphabet : string) (radix : Z) (s : string)
  (out : Js.number) :
  1 <= radix -> at_least (2 ^ 53) out ->
  Js.all_chars (Js.includes alphabet) s = true ->
  exists x, decode_loop alphabet radix s out = Ret x /\ at_least (2 ^ 53) x.
Proof.
  intros Hr. revert out. induction s as [|c s IH]; intros out Hout Hall;
    cbn [decode_loop Js.all_chars] in *.
  - eauto.
  - apply andb_prop in Hall as [Hc Hall].
    destruct (indexOf_includes alphabet c) as [E R]. rewrite Hc in E.
    rewrite E. apply Z.eqb_neq in E.
    apply IH; [apply decode_step_big; (assumption || lia) | assumption].
Qed.

(** A text whose exact value is beyond [2^53] decodes to a number from
    [2^53] on, or to infinity. *)
Lemma decode_loop_big (alphabet : string) (radix : Z) (s : string) (acc z : Z) :
  1 <= radix -> 0 <= acc <= 2 ^ 53 -> 2 ^ 53 < z ->
  Js.all_chars (Js.includes alphabet) s = true ->
  exact_decode alphabet radix s acc = Ret z ->
  exists x,
    decode_loop alphabet radix s (Js.of_Z acc) = Ret x /\ at_least (2 ^ 53) x.
Proof.
  assert (E1 : 2 ^ 53 = 9007199254740992) by reflexivity.
  intros Hr. revert acc.
  induction s as [|c s IH]; intros acc Hacc Hz Hall H;
    cbn [exact_decode decode_loop Js.all_chars] in *.
  - injection H as <-. lia.
  - apply andb_prop in Hall as [Hc Hall].
    pose proof (indexOf_lower alphabet c).
    destruct (Z.eqb_spec (Js.indexOf alphabet c) (-1)); [discriminate|].
    set (d := Js.indexOf alphabet c) in *.
    destruct (Z.le_gt_cases (acc * radix + d) (2 ^ 53)) as [Hle|Hgt].
    + rewrite mul_of_Z, of_Q_exact, add_of_Z, of_Q_exact by nia.
      apply IH; (assumption || nia).
    + apply decode_loop_past; [assumption | | assumption].
      destruct (Z.le_gt_cases (acc * radix) (2 ^ 53)) as [Hm|Hm].
      * rewrite mul_of_Z, of_Q_exact, add_of_Z by nia. apply of_Q_past. lia.
      * rewrite mul_of_Z.
        destruct (of_Q_past (acc * radix) ltac:(lia)) as [->|(z' & -> & Hz')];
          [now left|].
        rewrite add_of_Z. apply of_Q_past. lia.
Qed.

(** X15.  The other round trip: on a canonical text of the alphabet ([0], or
    a text that does not start with [0]), the decoder returns infinity or a
    non-negative integer, and when that integer is below [2^53] its encoding
    is the text. *)
Theorem encode_decode_roundtrip (options : UzidOptions) (this : Uzid)
  (str : string) :
  constructor options = Ret this ->
  Js.all_chars (Js.includes (chars this)) str = true ->
  canonical str = true ->
  exists x,
    fromBaseString this str (base this) = Ret x
    /\ (x = Js.Infinity false
        \/ exists v, x = Js.of_Z v
                     /\ 0 <= v
                     /\ (v < 2 ^ 53 -> toBaseString this v (base this) = str)).
Proof.
  intros Hc Hall Hcan. apply constructor_ok in Hc as [Hchars _].
  assert (P53 : 0 < 2 ^ 53) by reflexivity.
  rewrite Hchars in Hall.
  assert (Hdec : exists v,
    0 <= v
    /\ exact_decode (chars_of (base this)) (base_value (base this)) str 0 = Ret v
    /\ (if v =? 0 then "0"
        else Js.digit_loop (Js.loop_fuel v) (chars_of (base this))
               (base_value (base this)) v "") = str).
  { destruct str as [|c s]; [discriminate|].
    cbn [Js.all_chars] in Hall. apply andb_prop in Hall as [Hin Hall].
    destruct (alphabet_char (base this) c Hin) as (Hi & Hat & _).
    cbn [exact_decode]. rewrite Z.mul_0_l, Z.add_0_l.
    destruct (Z.eqb_spec (Js.indexOf (chars_of (base this)) c) (-1)) as [?|_]; [lia|].
    destruct (Z.eq_dec (Js.indexOf (chars_of (base this)) c) 0) as [E0|N0].
    - (* the text starts with the digit zero, so it is [0] *)
      rewrite E0 in Hat.
      assert (c = "0"%char) by (destruct (base this); now injection Hat).
      subst c. cbn [canonical Ascii.eqb Bool.eqb negb orb] in Hcan.
      simpl in Hcan. apply String.eqb_eq in Hcan. subst s.
      exists 0. rewrite E0. repeat split; reflexivity || lia.
    - destruct (decode_then_encode (base this) s
                  (Js.indexOf (chars_of (base this)) c) ltac:(lia) Hall)
        as (z & Hz & Hd & He).
      exists z. repeat split; [lia | assumption |].
      destruct (Z.eqb_spec z 0) as [?|_]; [lia|]. rewrite He.
      rewrite digits_single, Hat by lia. reflexivity. }
  destruct Hdec as (v & Hv & Hd & He).
  assert (Hfrom : exists x,
    fromBaseString this str (base this) = Ret x
    /\ (v <= 2 ^ 53 -> x = Js.of_Z v)
    /\ (2 ^ 53 < v -> at_least (2 ^ 53) x)).
  { unfold fromBaseString. rewrite Hchars. destruct (base this).
    - destruct (parseInt36_as_decode str 0 Hall) as [Hp Hne].
      change (chars_of B36) with chars36 in Hd. cbn [base_value] in Hd.
      rewrite Hd in Hp. injection Hp as Hp.
      rewrite parseInt36_digits by (apply Hne; intros ->; discriminate Hcan).
      unfold Js.digits_value. rewrite <- Hp.
      eexists. split; [reflexivity|]. split; intros Hb.
      + apply of_Q_exact. lia.
      + apply of_Q_past. lia.
    - cbn [base_value chars_of] in *.
      destruct (Z.le_gt_cases v (2 ^ 53)) as [Hle|Hgt].
      + exists (Js.of_Z v). split; [|split; [reflexivity | lia]].
        apply decode_loop_exact; (assumption || lia).
      + destruct (decode_loop_big chars62 62 str 0 v) as (x & Hx & Hpast);
          try (assumption || lia).
        exists x. split; [assumption|]. split; [lia | intros _; assumption]. }
  destruct Hfrom as (x & Hx & Hsmall & Hbig). exists x. split; [assumption|].
  destruct (Z.le_gt_cases v (2 ^ 53)) as [Hle|Hgt].
  - right. exists v. split; [auto|]. split; [assumption|]. intros Hlt.
    unfold toBaseString, Js.toString36. rewrite Hchars.
    destruct (base this).
    + destruct (Z.ltb_spec v 0); [lia|]. exact He.
    + cbn [base_value chars_of] in *.
      rewrite encode_loop_exact by (split; (lia || reflexivity)). exact He.
  - destruct (Hbig Hgt) as [->|(z & -> & Hz)]; [now left|].
    right. exists z. split; [reflexivity|]. split; lia.
Qed.

Lemma encode_decode_roundtrip_witness :
  exists x,
    fromBaseString uzid62 "tVCOKGI" (base uzid62) = Ret x
    /\ (x = Js.Infinity false
        \/ exists v, x = Js.of_Z v
                     /\ 0 <= v
                     /\ (v < 2 ^ 53 -> toBaseString uzid62 v (base uzid62) = "tVCOKGI")).
Proof.
  exact (encode_decode_roundtrip options62 uzid62 "tVCOKGI" eq_refl eq_refl eq_refl).
Defined.
